(** * vocalcoach-api: the audio-to-classification core of [app.py]

    A shallow embedding of [analyze_pitch], [classify_voice] and the
    result-composing part of the [/analyze] endpoint, with the properties
    the specification states about them; then of the helper functions
    ([allowed_file], [generate_unique_filename], [clean_up_files],
    [convert_to_wav]) and of the whole endpoint over a file system and its
    collaborators, with further properties read off the code.

    Python's [float] is IEEE-754 binary64.  It is modelled by the Standard
    Library's [spec_float] at precision 53 and maximal exponent 1024, the
    executable specification Rocq gives for its own binary64 numbers:
    comparisons, addition and division are the IEEE operations (rounding to
    nearest, ties to even), NaN and the infinities included. *)

From Stdlib Require Import ZArith List String Ascii Bool Lia.
From Stdlib Require Import Floats.SpecFloat.
From Stdlib Require Import Sorting.Sorted Sorting.Permutation Sorting.Mergesort.
From Stdlib Require Import Orders.
Import ListNotations.

Local Open Scope Z_scope.

(* ================================================================== *)
(** ** Binary64 numbers *)
(* ================================================================== *)

Module Float64.

Definition float : Type := spec_float.

Definition prec : Z := 53.
Definition emax : Z := 1024.

Definition nan : float := S754_nan.
Definition zero : float := S754_zero false.

(** [float(n)] for a Python [int] [n] (correctly rounded). *)
Definition of_Z (n : Z) : float := binary_normalize prec emax n 0 false.

Definition add (x y : float) : float := SFadd prec emax x y.
Definition div (x y : float) : float := SFdiv prec emax x y.

(** Python's [x <= y], [x < y] and [x == y] on floats: false as soon as an
    operand is NaN. *)
Definition leb (x y : float) : bool := SFleb x y.
Definition ltb (x y : float) : bool := SFltb x y.
Definition eqb (x y : float) : bool := SFeqb x y.

(** [np.isfinite] and [np.isnan]. *)
Definition is_finite (x : float) : bool :=
  match x with
  | S754_zero _ | S754_finite _ _ _ => true
  | S754_infinity _ | S754_nan => false
  end.

Definition is_nan (x : float) : bool :=
  match x with
  | S754_nan => true
  | _ => false
  end.

(** The binary64 number nearest to the decimal [n / 10^k] ([n] an integer):
    what a Python literal such as [449.996] denotes.  IEEE division is
    correctly rounded, so dividing the two integers gives it. *)
Definition decimal (n : Z) (k : nat) : float :=
  match n with
  | Z0 => zero
  | Zpos p => SFdiv prec emax (S754_finite false p 0)
                    (S754_finite false (Z.to_pos (10 ^ Z.of_nat k)) 0)
  | Zneg p => SFdiv prec emax (S754_finite true p 0)
                    (S754_finite false (Z.to_pos (10 ^ Z.of_nat k)) 0)
  end.

(** *** The order of the comparisons

    [SFcompare] orders the numbers that are not NaN by sign class, then
    by exponent, then by mantissa.  [key] names the three components, so
    that facts about [leb] and [ltb] become linear arithmetic on [Z]. *)

Definition key (x : float) : Z * Z * Z :=
  match x with
  | S754_nan => (3, 0, 0)
  | S754_infinity true => (-2, 0, 0)
  | S754_infinity false => (2, 0, 0)
  | S754_zero _ => (0, 0, 0)
  | S754_finite false m e => (1, e, Zpos m)
  | S754_finite true m e => (-1, - e, Zneg m)
  end.

Definition lex_lt (a b : Z * Z * Z) : Prop :=
  let '(c1, e1, m1) := a in
  let '(c2, e2, m2) := b in
  c1 < c2 \/ (c1 = c2 /\ (e1 < e2 \/ (e1 = e2 /\ m1 < m2))).

Definition lex_le (a b : Z * Z * Z) : Prop :=
  let '(c1, e1, m1) := a in
  let '(c2, e2, m2) := b in
  c1 < c2 \/ (c1 = c2 /\ (e1 < e2 \/ (e1 = e2 /\ m1 <= m2))).

End Float64.

Import Float64.

(* ================================================================== *)
(** ** Strings: [str.lower] *)
(* ================================================================== *)

(** [str.lower] on the ASCII letters.  A byte outside [A-Z] is kept: the
    bytes of a non-ASCII character never become one of the letters of
    ["female"] or ["male"], under Python's lowering as well, so the two
    comparisons of [classify_voice] are decided alike. *)
Definition lower_char (c : ascii) : ascii :=
  let n := nat_of_ascii c in
  if ((65 <=? n) && (n <=? 90))%nat then ascii_of_nat (n + 32) else c.

Fixpoint lower (s : string) : string :=
  match s with
  | EmptyString => EmptyString
  | String c s' => String (lower_char c) (lower s')
  end.

(* ================================================================== *)
(** ** Enums and data classes *)
(* ================================================================== *)

Inductive VoiceType : Type :=
  | SOPRANO
  | MEZZO_SOPRANO
  | CONTRALTO
  | COUNTER_TENOR
  | TENOR
  | BARITONE
  | BASS
  | UNKNOWN.

(** [VoiceType.value]: the display string of each member. *)
Definition value (v : VoiceType) : string :=
  match v with
  | SOPRANO => "Soprano"
  | MEZZO_SOPRANO => "Mezzo-soprano"
  | CONTRALTO => "Kontralto"
  | COUNTER_TENOR => "Tiz Erkek (Countertenor)"
  | TENOR => "Tenor"
  | BARITONE => "Bariton"
  | BASS => "Bas"
  | UNKNOWN => "Belirsiz"
  end.

(* ================================================================== *)
(** ** [classify_voice] *)
(* ================================================================== *)

(** A chained comparison [a <= x < b] is [a <= x and x < b]; an [int]
    bound is compared with the float by value. *)
Definition classify_voice (avg_pitch : float) (gender : string) : VoiceType :=
  let gender := lower gender in
  if (gender =? "female")%string then
    if leb (of_Z 450) avg_pitch && leb avg_pitch (of_Z 1100) then SOPRANO
    else if leb (of_Z 350) avg_pitch && ltb avg_pitch (of_Z 450)
    then MEZZO_SOPRANO
    else if leb (of_Z 165) avg_pitch && ltb avg_pitch (of_Z 350) then CONTRALTO
    else UNKNOWN
  else if (gender =? "male")%string then
    if leb (of_Z 450) avg_pitch && leb avg_pitch (of_Z 700) then COUNTER_TENOR
    else if leb (of_Z 165) avg_pitch && ltb avg_pitch (of_Z 255) then TENOR
    else if leb (of_Z 110) avg_pitch && ltb avg_pitch (of_Z 165) then BARITONE
    else if leb (of_Z 80) avg_pitch && ltb avg_pitch (of_Z 110) then BASS
    else UNKNOWN
  else UNKNOWN.

(** *** The band table of the specification

    The specification's words: a fixed, ordered table of bands per gender,
    evaluated top to bottom, first match wins, no match gives Unknown. *)
Module BandTable.

Inductive Gender : Type := Female | Male.

Record band : Type := Band {
  band_lo : Z;
  band_hi : Z;
  band_hi_inclusive : bool;
  band_category : VoiceType
}.

Definition in_band (b : band) (p : float) : bool :=
  leb (of_Z (band_lo b)) p &&
  (if band_hi_inclusive b then leb p (of_Z (band_hi b))
   else ltb p (of_Z (band_hi b))).

Definition table (g : Gender) : list band :=
  match g with
  | Female => [ Band 450 1100 true SOPRANO;
                Band 350 450 false MEZZO_SOPRANO;
                Band 165 350 false CONTRALTO ]
  | Male => [ Band 450 700 true COUNTER_TENOR;
              Band 165 255 false TENOR;
              Band 110 165 false BARITONE;
              Band 80 110 false BASS ]
  end.

Fixpoint first_match (bands : list band) (p : float) : VoiceType :=
  match bands with
  | [] => UNKNOWN
  | b :: rest => if in_band b p then band_category b else first_match rest p
  end.

(** The gender input is one of female and male, whatever its case. *)
Definition parse_gender (g : string) : option Gender :=
  if (lower g =? "female")%string then Some Female
  else if (lower g =? "male")%string then Some Male
  else None.

Definition classify (p : float) (g : string) : VoiceType :=
  match parse_gender g with
  | Some gd => first_match (table gd) p
  | None => UNKNOWN
  end.

End BandTable.

(** [p] lies in the closed band [[a, b]], or in the half-open band [[a, b)]. *)
Definition in_cc (a b : Z) (p : float) : Prop :=
  leb (of_Z a) p = true /\ leb p (of_Z b) = true.

Definition in_co (a b : Z) (p : float) : Prop :=
  leb (of_Z a) p = true /\ ltb p (of_Z b) = true.

(* ================================================================== *)
(** ** Python results and exceptions *)
(* ================================================================== *)

(** The two [ValueError]s of [analyze_pitch], told apart by their message:
    the buffer is shorter than 0.5 s ([InsufficientAudio]), no pitch was
    found ([NoPitchDetected]). *)
Inductive ValueErrorKind : Type :=
  | InsufficientAudio
  | NoPitchDetected.

Inductive exn : Type :=
  | ValueError (k : ValueErrorKind)
  | ZeroDivisionError
  | OverflowError
  | LibraryError (what : string).

Inductive result (A : Type) : Type :=
  | Ok (a : A)
  | Raise (e : exn).

Arguments Ok {A} a.
Arguments Raise {A} e.

Definition bind {A B : Type} (r : result A) (k : A -> result B) : result B :=
  match r with
  | Ok a => k a
  | Raise e => Raise e
  end.

Notation "x <- r ;; k" := (bind r (fun x => k))
  (at level 61, r at next level, right associativity).

(** [a / b] on two Python [int]s: the correctly rounded quotient, an
    exception when [b] is zero or the quotient is too large for a float. *)
Definition int_truediv (a b : Z) : result float :=
  match b with
  | Z0 => Raise ZeroDivisionError
  | _ =>
      let q :=
        match a with
        | Z0 => S754_zero (b <? 0)
        | _ => SFdiv prec emax
                 (S754_finite (a <? 0) (Z.to_pos (Z.abs a)) 0)
                 (S754_finite (b <? 0) (Z.to_pos (Z.abs b)) 0)
        end in
      if is_finite q then Ok q else Raise OverflowError
  end.

(* ================================================================== *)
(** ** [np.median] *)
(* ================================================================== *)

(** numpy sorts NaN to the end. *)
Definition sort_leb (x y : float) : bool := is_nan y || leb x y.

Fixpoint insert (x : float) (l : list float) : list float :=
  match l with
  | [] => [x]
  | h :: t => if sort_leb x h then x :: h :: t else h :: insert x t
  end.

Definition sort (l : list float) : list float := fold_right insert [] l.

(** [np.median] of a one-dimensional array, as numpy documents it: with
    [V_sorted] a sorted copy, [V_sorted[(N-1)/2]] when [N] is odd, the
    average of the two middle values when [N] is even; NaN when the array
    is empty or holds a NaN. *)
Definition np_median (a : list float) : float :=
  let sz := List.length a in
  let v_sorted := sort a in
  if existsb is_nan a then nan
  else
    match sz with
    | O => nan
    | _ =>
        if Nat.even sz
        then div (add (nth (sz / 2 - 1) v_sorted nan)
                      (nth (sz / 2) v_sorted nan))
                 (of_Z 2)
        else nth ((sz - 1) / 2) v_sorted nan
    end.

(* ================================================================== *)
(** ** [round(x, 2)] *)
(* ================================================================== *)

(** The integer nearest to [n / d] for [0 < d], ties to the even one. *)
Definition round_half_even (n d : Z) : Z :=
  let q := n / d in
  let r := n mod d in
  match 2 * r ?= d with
  | Lt => q
  | Gt => q + 1
  | Eq => if Z.even q then q else q + 1
  end.

(** The number of hundredths nearest to the exact value [m * 2^e]. *)
Definition hundredths (m : positive) (e : Z) : Z :=
  match e with
  | Zneg k => round_half_even (100 * Zpos m) (Z.pow_pos 2 k)
  | _ => 100 * Zpos m * 2 ^ e
  end.

(** [round(x, 2)]: the exact value of [x] is rounded to two decimals, ties
    to even, and the float nearest to that decimal is returned; zeros,
    infinities and NaN round to themselves. *)
Definition py_round2 (x : float) : float :=
  match x with
  | S754_finite s m e =>
      match hundredths m e with
      | Zpos p => SFdiv prec emax (S754_finite s p 0) (S754_finite false 100 0)
      | _ => S754_zero s
      end
  | _ => x
  end.

(** The two decimals of [round(x, 2)] as its documentation has them, for
    a finite [x] of mantissa [m] and exponent [e]: [N] is the integer
    nearest to the exact value [100 * m * 2^e], the even one when two are
    as near.  Stated on integers: for a negative [e] and [d = 2^(-e)],
    [d * N] is within [d / 2] of [100 * m]. *)
Definition nearest_hundredths (m : positive) (e N : Z) : Prop :=
  0 <= N
  /\ (0 <= e -> N = 100 * Zpos m * 2 ^ e)
  /\ (e < 0 ->
      2 * Z.abs (100 * Zpos m - 2 ^ (- e) * N) <= 2 ^ (- e)
      /\ (2 * Z.abs (100 * Zpos m - 2 ^ (- e) * N) = 2 ^ (- e) ->
          Z.even N = true)).

(* ================================================================== *)
(** ** [analyze_pitch] and the [/analyze] endpoint *)
(* ================================================================== *)

Definition voiced (x : float) : bool := is_finite x && ltb (of_Z 0) x.

Record AnalysisResult : Type := {
  voice_type : VoiceType;
  average_pitch : float;
  processing_time : Z
}.

(** The JSON body of a successful answer, and the answer of the endpoint. *)
Record SuccessBody : Type := {
  body_voice_type : string;
  body_average_pitch : float;
  body_pitch_series : list float;
  body_processing_time : Z
}.

Inductive Response : Type :=
  | Success (body : SuccessBody)
  | Failure (code : Z) (e : exn).

Section Pipeline.

(** [librosa.yin(y, fmin=50, fmax=1000, sr=sr)]: the pitch estimator, a
    function of the samples and the rate that returns one frame per
    analysis window ([inr]) or raises one of librosa's exceptions
    ([inl], with its name), none of which is a [ValueError]. *)
Variable yin : list float -> Z -> string + list float.

Definition call_yin (y : list float) (sr : Z) : result (list float) :=
  match yin y sr with
  | inr frames => Ok frames
  | inl what => Raise (LibraryError what)
  end.

Definition analyze_pitch (y : list float) (sr : Z)
  : result (float * list float) :=
  duration <- int_truediv (Z.of_nat (List.length y)) sr ;;
  if ltb duration (decimal 5 1) then Raise (ValueError InsufficientAudio)
  else
    pitch <- call_yin y sr ;;
    let pitch := filter is_finite pitch in
    let pitch := filter (fun f => ltb (of_Z 0) f) pitch in
    if (List.length pitch =? 0)%nat then Raise (ValueError NoPitchDetected)
    else Ok (np_median pitch, pitch).

(** [/analyze] from the decoded buffer on: [y] and [sr] are what
    [librosa.load] returned, [start_time] and [now] the two readings of
    the clock (microseconds).  A [ValueError] is answered with 400, any
    other exception with 500. *)
Definition analyze (y : list float) (sr : Z) (gender : string)
    (start_time now : Z) : Response :=
  match analyze_pitch y sr with
  | Ok (avg_pitch, pitch_series) =>
      let result := {| voice_type := classify_voice avg_pitch gender;
                       average_pitch := py_round2 avg_pitch;
                       processing_time := now - start_time |} in
      Success {| body_voice_type := value result.(voice_type);
                 body_average_pitch := result.(average_pitch);
                 body_pitch_series := pitch_series;
                 body_processing_time := result.(processing_time) |}
  | Raise (ValueError k) => Failure 400 (ValueError k)
  | Raise e => Failure 500 e
  end.

End Pipeline.

(** [s] is [l] with some elements left out, the others in their order. *)
Inductive subseq {A : Type} : list A -> list A -> Prop :=
  | subseq_nil : subseq [] []
  | subseq_skip (x : A) (s l : list A) : subseq s l -> subseq s (x :: l)
  | subseq_keep (x : A) (s l : list A) : subseq s l -> subseq (x :: s) (x :: l).

(** The display strings as the specification lists them, and as
    [VoiceType] defines them. *)
Definition spec_labels : list string :=
  [ "Soprano"; "Mezzo-soprano"; "Contralto"; "Counter-tenor"; "Tenor";
    "Baritone"; "Bass"; "Unknown" ]%string.

Definition all_voice_types : list VoiceType :=
  [ SOPRANO; MEZZO_SOPRANO; CONTRALTO; COUNTER_TENOR; TENOR; BARITONE; BASS;
    UNKNOWN ].

Definition code_labels : list string := map value all_voice_types.

(** [x <= y] as Python evaluates it on two floats. *)
Definition le (x y : float) : Prop := leb x y = true.

(** Stand-in estimators for examples: one frame of 449.996 Hz whatever the
    buffer; frames of every kind (NaN, an infinity, zero, a negative value
    among three voiced ones); an estimator that marks every frame as
    unvoiced, by zero or NaN; four frames of 100 to 400 Hz. *)
Definition yin_one_frame (_ : list float) (_ : Z) : string + list float :=
  inr [decimal 449996 3].

Definition mixed_frames : list float :=
  [ nan; of_Z 220; S754_infinity false; of_Z 0; of_Z (-5); decimal 4405 1;
    of_Z 220 ].

Definition yin_mixed (_ : list float) (_ : Z) : string + list float :=
  inr mixed_frames.

Definition yin_unvoiced (_ : list float) (_ : Z) : string + list float :=
  inr [of_Z 0; nan; of_Z 0].

Definition yin_four_frames (_ : list float) (_ : Z) : string + list float :=
  inr [of_Z 100; of_Z 200; of_Z 300; of_Z 400].

(** One second of silence at 44.1 kHz, the rate [convert_to_wav] asks the
    converter for. *)
Definition one_second_of_silence : list float :=
  repeat zero (Z.to_nat 44100).

(** What [librosa.yin(y, fmin=50, fmax=1000, sr=44100)] answers on it, by
    the library's algorithm (the library is not part of the repository):
    frames of 2048 samples every 512 samples, [1 + 44100 // 512 = 87] of
    them; the difference function of a silent frame is zero everywhere, no
    trough is below the threshold, and the frame gets the shortest period
    of the search band, [floor(44100 / 1000) = 44] samples, that is
    [44100 / 44] Hz.  No frame is zero or NaN: unlike [librosa.pyin], this
    estimator has no mark for an unvoiced frame.  The stand-in answers on
    this buffer only. *)
Definition silence_frames : list float :=
  repeat (div (of_Z 44100) (of_Z 44)) 87.

Definition yin_on_silence (y : list float) (sr : Z) : string + list float :=
  if (sr =? 44100) && (Z.of_nat (List.length y) =? 44100)
     && forallb (fun sample => eqb sample zero) y
  then inr silence_frames
  else inl "another buffer"%string.

(** What two answers are compared on: everything but the processing time. *)
Definition content (r : Response) : Response :=
  match r with
  | Success b =>
      Success {| body_voice_type := b.(body_voice_type);
                 body_average_pitch := b.(body_average_pitch);
                 body_pitch_series := b.(body_pitch_series);
                 body_processing_time := 0 |}
  | Failure c e => Failure c e
  end.

(* ================================================================== *)
(** ** Configuration and the helper functions *)
(* ================================================================== *)

Module Config.

Definition UPLOAD_FOLDER : string := "uploads".
Definition CONVERTED_FOLDER : string := "converted".
Definition ALLOWED_EXTENSIONS : list string :=
  ["aac"; "wav"; "mp3"; "ogg"]%string.

End Config.

(** [c in s], for a character [c]. *)
Fixpoint contains (c : ascii) (s : string) : bool :=
  match s with
  | EmptyString => false
  | String c' s' => Ascii.eqb c' c || contains c s'
  end.

(** [s.rsplit(c, 1)]: the parts before and after the last [c], when [s]
    holds one; the list has [s] alone otherwise. *)
Fixpoint rsplit1 (c : ascii) (s : string) : option (string * string) :=
  match s with
  | EmptyString => None
  | String c' s' =>
      match rsplit1 c s' with
      | Some (before, after) => Some (String c' before, after)
      | None => if Ascii.eqb c' c then Some (EmptyString, s') else None
      end
  end.

(** The letters and the digit of the allowed extensions are ASCII, and no
    other character lowers to one of them, so [lower] decides the
    membership as [str.lower] does.  The index [1] exists as soon as the
    name holds a dot. *)
Definition allowed_file (filename : string) : bool :=
  contains "." filename &&
  match rsplit1 "." filename with
  | Some (_, extension) =>
      existsb (String.eqb (lower extension)) Config.ALLOWED_EXTENSIONS
  | None => false
  end.

(** *** [os.path.join] and [os.path.splitext] (POSIX) *)

Definition startswith_sep (s : string) : bool :=
  match s with
  | String c _ => Ascii.eqb c "/"
  | EmptyString => false
  end.

Fixpoint endswith_sep (s : string) : bool :=
  match s with
  | EmptyString => false
  | String c EmptyString => Ascii.eqb c "/"
  | String _ s' => endswith_sep s'
  end.

Definition path_join (a b : string) : string :=
  if startswith_sep b then b
  else if (a =? "")%string || endswith_sep a then (a ++ b)%string
  else (a ++ "/" ++ b)%string.

Fixpoint all_dots (s : string) : bool :=
  match s with
  | EmptyString => true
  | String c s' => Ascii.eqb c "." && all_dots s'
  end.

(** The extension starts at the last dot of the last component, leading
    dots of the component set aside. *)
Definition splitext (p : string) : string * string :=
  let '(dir, base) :=
    match rsplit1 "/" p with
    | Some (d, b) => ((d ++ "/")%string, b)
    | None => (EmptyString, p)
    end in
  match rsplit1 "." base with
  | Some (stem, ext) =>
      if all_dots stem then (p, EmptyString)
      else ((dir ++ stem)%string, ("." ++ ext)%string)
  | None => (p, EmptyString)
  end.

(* ================================================================== *)
(** ** The file system and the collaborators of the endpoint *)
(* ================================================================== *)

(** The file system, as far as the endpoint looks at it: the paths that
    exist ([os.path.exists]).  A path is a spelling, and several spellings
    can name one file: [aliases q p] tells whether [q] stops existing when
    [os.remove(p)] deletes its file (another spelling of [p], a link that
    resolves to it). *)
Definition FS : Type := string -> bool.

Definition fs_remove (aliases : string -> string -> bool) (path : string)
    (fs : FS) : FS :=
  fun q => if (q =? path)%string || aliases q path then false else fs q.

(** What the endpoint calls and does not define.  A call that raises
    reports whether the exception is a [ValueError] (answered with 400) or
    not (answered with 500).
    - [uuid_hex]: [uuid.uuid4().hex] of the request;
    - [secure_filename]: werkzeug's function;
    - [file_save path]: [file.save(path)], [None] when it returns;
    - [ffmpeg input output]: [subprocess.run] on the converter, with the
      exit code ([inl]) or the exception of a run that could not be made
      ([inr]);
    - [librosa_load path]: the samples and the rate, or an exception;
    - [librosa_yin]: the pitch estimator;
    - [os_remove_ok fs path]: whether [os.remove(path)] succeeds;
    - [os_aliases q p]: whether [q] names the file that [os.remove(p)]
      deletes. *)
Record World : Type := {
  uuid_hex : string;
  secure_filename : string -> string;
  file_save : string -> FS -> option bool * FS;
  ffmpeg : string -> string -> FS -> (Z + bool) * FS;
  librosa_load : string -> FS -> bool + (list float * Z);
  librosa_yin : list float -> Z -> string + list float;
  os_remove_ok : FS -> string -> bool;
  os_aliases : string -> string -> bool
}.

Definition generate_unique_filename (w : World) (original_filename : string)
  : string * string :=
  let unique_id := uuid_hex w in
  let safe_filename :=
    secure_filename w (unique_id ++ "_" ++ original_filename)%string in
  let input_path := path_join Config.UPLOAD_FOLDER safe_filename in
  let output_path :=
    path_join Config.CONVERTED_FOLDER
              (fst (splitext safe_filename) ++ ".wav")%string in
  (input_path, output_path).

(** One turn of the loop of [clean_up_files]: a path that is [None] or
    empty, or that does not exist, is left alone; an exception of
    [os.remove] is caught. *)
Definition clean_up_file (w : World) (fs : FS) (path : option string) : FS :=
  match path with
  | Some p =>
      if negb (p =? "")%string && fs p
      then if os_remove_ok w fs p then fs_remove (os_aliases w) p fs else fs
      else fs
  | None => fs
  end.

Definition clean_up_files (w : World) (file_paths : list (option string))
    (fs : FS) : FS :=
  fold_left (clean_up_file w) file_paths fs.

(** [convert_to_wav]: [None] when it returns; an exit code other than 0
    is a [CalledProcessError], raised again as a plain [Exception]; another
    exception of the run goes through. *)
Definition convert_to_wav (w : World) (input_path output_path : string)
    (fs : FS) : option bool * FS :=
  let '(run, fs') := ffmpeg w input_path output_path fs in
  (match run with
   | inl 0 => None
   | inl _ => Some false
   | inr v => Some v
   end, fs').

(** The request: whether werkzeug finds it larger than
    [MAX_CONTENT_LENGTH] when the form is read, the file name of the
    [file] part and the [gender] field, when present. *)
Record Request : Type := {
  req_too_large : bool;
  req_file : option string;
  req_gender : option string
}.

Inductive RequestError : Type :=
  | NoFilePart
  | NoGenderField
  | NoFileSelected
  | UnsupportedFormat.

(** The answer of [/analyze]: a [ValueError] of the validation, the 413
    answer, an exception of a collaborator, or the answer of the analysis
    of the loaded buffer. *)
Inductive Answer : Type :=
  | Rejected (e : RequestError)
  | TooLarge
  | Crashed (is_value_error : bool)
  | Analysed (r : Response).

Definition status (a : Answer) : Z :=
  match a with
  | Rejected _ => 400
  | TooLarge => 413
  | Crashed true => 400
  | Crashed false => 500
  | Analysed (Success _) => 200
  | Analysed (Failure code _) => code
  end.

(** The [try] block of [/analyze]: the answer, the file system it leaves
    and the values of [input_path] and [output_path] at its end. *)
Definition analyze_try (w : World) (req : Request) (start_time now : Z)
    (fs : FS) : Answer * FS * list (option string) :=
  if req_too_large req then (TooLarge, fs, [None; None])
  else
    match req_file req with
    | None => (Rejected NoFilePart, fs, [None; None])
    | Some filename =>
        match req_gender req with
        | None => (Rejected NoGenderField, fs, [None; None])
        | Some gender =>
            if (filename =? "")%string
            then (Rejected NoFileSelected, fs, [None; None])
            else if negb (allowed_file filename)
            then (Rejected UnsupportedFormat, fs, [None; None])
            else
              let '(input_path, output_path) :=
                generate_unique_filename w filename in
              let paths := [Some input_path; Some output_path] in
              match file_save w input_path fs with
              | (Some v, fs1) => (Crashed v, fs1, paths)
              | (None, fs1) =>
                  match convert_to_wav w input_path output_path fs1 with
                  | (Some v, fs2) => (Crashed v, fs2, paths)
                  | (None, fs2) =>
                      match librosa_load w output_path fs2 with
                      | inl v => (Crashed v, fs2, paths)
                      | inr (y, sr) =>
                          (Analysed (analyze (librosa_yin w) y sr gender
                                             start_time now),
                           fs2, paths)
                      end
                  end
              end
        end
    end.

(** [/analyze]: the [try] block, then [clean_up_files] in [finally]. *)
Definition analyze_request (w : World) (req : Request) (start_time now : Z)
    (fs : FS) : Answer * FS :=
  let '(answer, fs', paths) := analyze_try w req start_time now fs in
  (answer, clean_up_files w paths fs').

(** The place of a category among the bands of its gender, from the
    lowest band up; [0] for [UNKNOWN]. *)
Definition register (v : VoiceType) : nat :=
  match v with
  | UNKNOWN => 0
  | CONTRALTO | BASS => 1
  | MEZZO_SOPRANO | BARITONE => 2
  | SOPRANO | TENOR => 3
  | COUNTER_TENOR => 4
  end.

(** The gender and the band a category stands for in [classify_voice]. *)
Definition in_band_of (v : VoiceType) (g : string) (p : float) : Prop :=
  match v with
  | SOPRANO => lower g = "female"%string /\ in_cc 450 1100 p
  | MEZZO_SOPRANO => lower g = "female"%string /\ in_co 350 450 p
  | CONTRALTO => lower g = "female"%string /\ in_co 165 350 p
  | COUNTER_TENOR => lower g = "male"%string /\ in_cc 450 700 p
  | TENOR => lower g = "male"%string /\ in_co 165 255 p
  | BARITONE => lower g = "male"%string /\ in_co 110 165 p
  | BASS => lower g = "male"%string /\ in_co 80 110 p
  | UNKNOWN => True
  end.

(** A world and a request for examples: the upload is saved, the converter
    writes its output and exits with 0, the loader gives four samples at
    8 Hz, the estimator gives the mixed frames, every removal succeeds
    and [./p] is another spelling of [p]. *)
Definition example_world : World := {|
  uuid_hex := "0f3a";
  secure_filename := fun s => s;
  file_save := fun p fs => (None, fun q => (q =? p)%string || fs q);
  ffmpeg := fun _ o fs => (inl 0, fun q => (q =? o)%string || fs q);
  librosa_load := fun _ _ => inr (repeat zero 4, 8);
  librosa_yin := yin_mixed;
  os_remove_ok := fun _ _ => true;
  os_aliases := fun q p => (q =? "./" ++ p)%string
|}.

Definition example_request : Request := {|
  req_too_large := false;
  req_file := Some "take.WAV"%string;
  req_gender := Some "Male"%string
|}.

Definition empty_fs : FS := fun _ => false.

(* ================================================================== *)
(** * Properties *)
(* ================================================================== *)

Example of_Z_450 : of_Z 450 = S754_finite false 7916483719987200 (-44).
Proof. reflexivity. Qed.

Example decimal_449_996 :
  decimal 449996 3 = S754_finite false 7916413351243022 (-44).
Proof. vm_compute. reflexivity. Qed.

Example decimal_half : decimal 5 1 = S754_finite false 4503599627370496 (-53).
Proof. vm_compute. reflexivity. Qed.

(** ** The order of the float comparisons *)

Ltac cmp_cases :=
  repeat match goal with
  | |- context [Z.compare ?a ?b] => destruct (Z.compare_spec a b)
  | |- context [Pos.compare_cont Eq ?a ?b] =>
      change (Pos.compare_cont Eq a b) with (Pos.compare a b);
      destruct (Pos.compare_spec a b)
  end.

Lemma ltb_iff (x y : float) :
  ltb x y = true <->
  is_nan x = false /\ is_nan y = false /\ lex_lt (key x) (key y).
Proof.
  unfold ltb, SFltb, SFcompare.
  destruct x as [[]|[]| |[] m1 e1], y as [[]|[]| |[] m2 e2]; simpl;
    cmp_cases; simpl; intuition (try discriminate; try lia).
Qed.

Lemma leb_iff (x y : float) :
  leb x y = true <->
  is_nan x = false /\ is_nan y = false /\ lex_le (key x) (key y).
Proof.
  unfold leb, SFleb, SFcompare.
  destruct x as [[]|[]| |[] m1 e1], y as [[]|[]| |[] m2 e2]; simpl;
    cmp_cases; simpl; intuition (try discriminate; try lia).
Qed.

Lemma ltb_false_iff (x y : float) :
  ltb x y = false <->
  ~ (is_nan x = false /\ is_nan y = false /\ lex_lt (key x) (key y)).
Proof. rewrite <- ltb_iff. symmetry. apply not_true_iff_false. Qed.

Lemma leb_false_iff (x y : float) :
  leb x y = false <->
  ~ (is_nan x = false /\ is_nan y = false /\ lex_le (key x) (key y)).
Proof. rewrite <- leb_iff. symmetry. apply not_true_iff_false. Qed.

Lemma leb_trans (x y z : float) :
  leb x y = true -> leb y z = true -> leb x z = true.
Proof.
  rewrite !leb_iff. unfold lex_le.
  destruct (key x) as [[c1 e1] m1], (key y) as [[c2 e2] m2],
           (key z) as [[c3 e3] m3].
  intros (Hx & _ & H1) (_ & Hz & H2). repeat split; trivial. lia.
Qed.

Lemma ltb_leb_trans (x y z : float) :
  ltb x y = true -> leb y z = true -> ltb x z = true.
Proof.
  rewrite leb_iff, !ltb_iff. unfold lex_le, lex_lt.
  destruct (key x) as [[c1 e1] m1], (key y) as [[c2 e2] m2],
           (key z) as [[c3 e3] m3].
  intros (Hx & _ & H1) (_ & Hz & H2). repeat split; trivial. lia.
Qed.

Lemma ltb_not_leb (x y : float) : ltb x y = true -> leb y x = false.
Proof.
  rewrite ltb_iff, leb_false_iff. unfold lex_le, lex_lt.
  destruct (key x) as [[c1 e1] m1], (key y) as [[c2 e2] m2].
  intros (_ & _ & H1) (_ & _ & H2). lia.
Qed.

(** A pitch below [y] is not at or above any [z] with [y <= z]. *)
Lemma below_excludes (x y z : float) :
  ltb x y = true -> leb y z = true -> leb z x = false.
Proof.
  intros H1 H2. apply ltb_not_leb. exact (ltb_leb_trans x y z H1 H2).
Qed.

(** With [H : ltb p hi = true], every lower bound at or above [hi] fails. *)
Ltac bands_above H :=
  repeat match goal with
  | |- context [leb (of_Z ?b) ?p] =>
      rewrite (below_excludes p _ (of_Z b) H eq_refl)
  end;
  cbn [andb].

(** A pitch in no band falls through every test. *)
Ltac no_band :=
  repeat match goal with
  | |- context [if ?a && ?b then _ else _] =>
      destruct a eqn:?; destruct b eqn:?; cbn [andb];
      try solve [exfalso; match goal with
                          | H : ~ _ |- _ => apply H; split; assumption
                          end]
  end;
  reflexivity.

(** ** The classifier *)

Lemma classify_voice_female (p : float) (g : string) :
  lower g = "female"%string ->
  classify_voice p g =
    if leb (of_Z 450) p && leb p (of_Z 1100) then SOPRANO
    else if leb (of_Z 350) p && ltb p (of_Z 450) then MEZZO_SOPRANO
    else if leb (of_Z 165) p && ltb p (of_Z 350) then CONTRALTO
    else UNKNOWN.
Proof. intros Hg. unfold classify_voice. rewrite Hg. reflexivity. Qed.

Lemma classify_voice_male (p : float) (g : string) :
  lower g = "male"%string ->
  classify_voice p g =
    if leb (of_Z 450) p && leb p (of_Z 700) then COUNTER_TENOR
    else if leb (of_Z 165) p && ltb p (of_Z 255) then TENOR
    else if leb (of_Z 110) p && ltb p (of_Z 165) then BARITONE
    else if leb (of_Z 80) p && ltb p (of_Z 110) then BASS
    else UNKNOWN.
Proof. intros Hg. unfold classify_voice. rewrite Hg. reflexivity. Qed.

Lemma classify_voice_other (p : float) (g : string) :
  lower g <> "female"%string -> lower g <> "male"%string ->
  classify_voice p g = UNKNOWN.
Proof.
  intros Hf Hm. unfold classify_voice.
  apply String.eqb_neq in Hf, Hm. rewrite Hf, Hm. reflexivity.
Qed.

Lemma classify_voice_table (p : float) (g : string) :
  classify_voice p g = BandTable.classify p g.
Proof.
  unfold classify_voice, BandTable.classify, BandTable.parse_gender.
  destruct (lower g =? "female")%string; [reflexivity|].
  destruct (lower g =? "male")%string; reflexivity.
Qed.

(** C1. The classifier returns the category of the ordered band table,
    first match winning: for a gender that lowers to "female", a pitch in
    [450,1100] is Soprano, in [350,450) Mezzo-soprano, in [165,350)
    Contralto, any other pitch Unknown; for one that lowers to "male", a
    pitch in [450,700] is Counter-tenor, in [165,255) Tenor, in [110,165)
    Baritone, in [80,110) Bass, any other pitch Unknown; 450.00 with
    "female" is Soprano and 300.00 with "male" is Unknown. *)
Theorem classify_voice_bands (p : float) (g : string) :
  classify_voice p g = BandTable.classify p g
  /\ (lower g = "female"%string ->
        (in_cc 450 1100 p -> classify_voice p g = SOPRANO)
        /\ (in_co 350 450 p -> classify_voice p g = MEZZO_SOPRANO)
        /\ (in_co 165 350 p -> classify_voice p g = CONTRALTO)
        /\ (~ in_cc 450 1100 p -> ~ in_co 350 450 p -> ~ in_co 165 350 p ->
            classify_voice p g = UNKNOWN))
  /\ (lower g = "male"%string ->
        (in_cc 450 700 p -> classify_voice p g = COUNTER_TENOR)
        /\ (in_co 165 255 p -> classify_voice p g = TENOR)
        /\ (in_co 110 165 p -> classify_voice p g = BARITONE)
        /\ (in_co 80 110 p -> classify_voice p g = BASS)
        /\ (~ in_cc 450 700 p -> ~ in_co 165 255 p -> ~ in_co 110 165 p ->
            ~ in_co 80 110 p -> classify_voice p g = UNKNOWN))
  /\ classify_voice (decimal 45000 2) "female" = SOPRANO
  /\ classify_voice (decimal 30000 2) "male" = UNKNOWN.
Proof.
  split; [apply classify_voice_table|].
  split; [intros Hg; rewrite (classify_voice_female p g Hg)|].
  { repeat split.
    - intros [H1 H2]. rewrite H1, H2. reflexivity.
    - intros [H1 H2]. bands_above H2. rewrite H1, H2. reflexivity.
    - intros [H1 H2]. bands_above H2. rewrite H1, H2. reflexivity.
    - intros; no_band. }
  split; [intros Hg; rewrite (classify_voice_male p g Hg)|].
  { repeat split.
    - intros [H1 H2]. rewrite H1, H2. reflexivity.
    - intros [H1 H2]. bands_above H2. rewrite H1, H2. reflexivity.
    - intros [H1 H2]. bands_above H2. rewrite H1, H2. reflexivity.
    - intros [H1 H2]. bands_above H2. rewrite H1, H2. reflexivity.
    - intros; no_band. }
  split; vm_compute; reflexivity.
Qed.

(** C5. The gender is matched through its lower-case form only: two
    strings with the same lower-case form classify alike, a string whose
    lower-case form is neither "female" nor "male" (such as
    "OTHER_STRING") gives Unknown, and the classifier has a value for
    every pitch and every string. *)
Theorem classify_voice_gender (p : float) (g : string) :
  (forall g' : string, lower g' = lower g ->
     classify_voice p g' = classify_voice p g)
  /\ (lower g <> "female"%string -> lower g <> "male"%string ->
      classify_voice p g = UNKNOWN)
  /\ classify_voice p "FEMALE" = classify_voice p "female"
  /\ classify_voice p "Male" = classify_voice p "male"
  /\ classify_voice p "OTHER_STRING" = UNKNOWN
  /\ (exists v : VoiceType, classify_voice p g = v).
Proof.
  split.
  { intros g' Hg. unfold classify_voice. rewrite Hg. reflexivity. }
  split; [apply classify_voice_other|].
  repeat split; try reflexivity.
  exists (classify_voice p g). reflexivity.
Qed.

(** ** The labels *)

(** The label of the Unknown category, as the endpoint answers it, is not
    in the set the specification lists. *)
Lemma label_not_in_spec_set :
  value (classify_voice (of_Z 200) "OTHER_STRING") = "Belirsiz"%string
  /\ ~ In (value (classify_voice (of_Z 200) "OTHER_STRING")) spec_labels
  /\ exists body,
       analyze yin_one_frame (repeat zero 4) 8 "OTHER_STRING" 0 1
       = Success body
       /\ ~ In (body_voice_type body) spec_labels.
Proof.
  assert (H : ~ In "Belirsiz"%string spec_labels).
  { simpl. intros H.
    repeat (destruct H as [H|H]; [discriminate H|]). exact H. }
  split; [reflexivity|]. split; [exact H|].
  eexists. split; [vm_compute; reflexivity|exact H].
Qed.

(** C8 (amended). The label of every category, and so of every
    classification, is one of the eight display strings of [VoiceType]:
    Soprano, Mezzo-soprano, Kontralto, Tiz Erkek (Countertenor), Tenor,
    Bariton, Bas, Belirsiz; each of them is the label of one category
    only. *)
Theorem label_in_code_set (p : float) (g : string) :
  In (value (classify_voice p g)) code_labels
  /\ code_labels =
       [ "Soprano"; "Mezzo-soprano"; "Kontralto"; "Tiz Erkek (Countertenor)";
         "Tenor"; "Bariton"; "Bas"; "Belirsiz" ]%string
  /\ (forall v : VoiceType, In (value v) code_labels)
  /\ (forall v w : VoiceType, value v = value w -> v = w)
  /\ (forall yin y sr start_time now body,
        analyze yin y sr g start_time now = Success body ->
        In (body_voice_type body) code_labels).
Proof.
  assert (Hall : forall v : VoiceType, In (value v) code_labels).
  { intros v. apply in_map. destruct v; simpl; tauto. }
  split; [apply Hall|]. split; [reflexivity|]. split; [exact Hall|].
  split.
  - intros v w.
    destruct v, w; simpl; intros H; try reflexivity; discriminate H.
  - intros yin y sr start_time now body. unfold analyze.
    destruct (analyze_pitch yin y sr) as [[median series]|e].
    + intros H. injection H as <-. apply Hall.
    + destruct e; discriminate.
Qed.

(** ** The pitch analysis *)

Lemma filter_voiced (frames : list float) :
  filter (fun f => ltb (of_Z 0) f) (filter is_finite frames)
  = filter voiced frames.
Proof.
  induction frames as [|x l IH]; [reflexivity|].
  cbn [filter]. unfold voiced at 1.
  destruct (is_finite x); cbn [filter andb]; rewrite IH; reflexivity.
Qed.

Lemma analyze_pitch_eq (yin : list float -> Z -> string + list float)
    (y : list float) (sr : Z) :
  analyze_pitch yin y sr =
    match int_truediv (Z.of_nat (List.length y)) sr with
    | Raise e => Raise e
    | Ok duration =>
        if ltb duration (decimal 5 1) then Raise (ValueError InsufficientAudio)
        else
          match yin y sr with
          | inl what => Raise (LibraryError what)
          | inr frames =>
              match filter voiced frames with
              | [] => Raise (ValueError NoPitchDetected)
              | x :: s => Ok (np_median (x :: s), x :: s)
              end
          end
    end.
Proof.
  unfold analyze_pitch, call_yin, bind.
  destruct (int_truediv _ sr) as [d|e]; [|reflexivity].
  destruct (ltb d _); [reflexivity|].
  destruct (yin y sr) as [w|frames]; [reflexivity|].
  rewrite filter_voiced. destruct (filter voiced frames); reflexivity.
Qed.

(** The analysis of a buffer that is long enough, with frames of which
    one at least is voiced, returns. *)
Lemma analyze_pitch_success (yin : list float -> Z -> string + list float)
    (y : list float) (sr : Z) (duration : float) (frames : list float) :
  int_truediv (Z.of_nat (List.length y)) sr = Ok duration ->
  ltb duration (decimal 5 1) = false ->
  yin y sr = inr frames ->
  (exists f, In f frames /\ is_finite f = true /\ ltb (of_Z 0) f = true) ->
  analyze_pitch yin y sr
  = Ok (np_median (filter voiced frames), filter voiced frames)
  /\ filter voiced frames <> [].
Proof.
  intros Hd Hlt Hy (f & Hin & Hf1 & Hf2).
  assert (Hin' : In f (filter voiced frames)).
  { apply filter_In. split; [exact Hin|]. unfold voiced.
    rewrite Hf1, Hf2. reflexivity. }
  rewrite analyze_pitch_eq, Hd, Hlt, Hy.
  destruct (filter voiced frames); [destruct Hin'|].
  split; [reflexivity|discriminate].
Qed.

(** With no voiced frame the analysis of a buffer that is long enough
    raises the NoPitchDetected error. *)
Lemma analyze_pitch_unvoiced (yin : list float -> Z -> string + list float)
    (y : list float) (sr : Z) (duration : float) (frames : list float) :
  int_truediv (Z.of_nat (List.length y)) sr = Ok duration ->
  ltb duration (decimal 5 1) = false ->
  yin y sr = inr frames ->
  (forall f, In f frames -> is_finite f = true -> ltb (of_Z 0) f = false) ->
  analyze_pitch yin y sr = Raise (ValueError NoPitchDetected).
Proof.
  intros Hd Hlt Hy Hno. rewrite analyze_pitch_eq, Hd, Hlt, Hy.
  destruct (filter voiced frames) as [|x s] eqn:E; [reflexivity|].
  assert (Hx : In x (filter voiced frames)) by (rewrite E; left; reflexivity).
  apply filter_In in Hx. destruct Hx as [Hin Hv]. unfold voiced in Hv.
  apply andb_prop in Hv. destruct Hv as [Hf Hp].
  rewrite (Hno x Hin Hf) in Hp. discriminate Hp.
Qed.

Lemma filter_subseq {A : Type} (f : A -> bool) (l : list A) :
  subseq (filter f l) l.
Proof.
  induction l as [|x l IH]; simpl.
  - constructor.
  - destruct (f x); constructor; exact IH.
Qed.

(** The filtered list holds every subsequence of elements that pass. *)
Lemma subseq_filter_max {A : Type} (f : A -> bool) (s l : list A) :
  subseq s l -> Forall (fun x => f x = true) s -> subseq s (filter f l).
Proof.
  induction 1 as [|x s l _ IH|x s l _ IH]; intros Hs; simpl.
  - constructor.
  - destruct (f x); [apply subseq_skip|]; apply IH; exact Hs.
  - inversion Hs as [|? ? Hx Hs']; subst. rewrite Hx.
    apply subseq_keep. apply IH. exact Hs'.
Qed.

Lemma voiced_iff (x : float) :
  voiced x = true <-> is_finite x = true /\ ltb (of_Z 0) x = true.
Proof. unfold voiced. apply andb_true_iff. Qed.

(** ** The duration test

    [len(y) / sr] is a binary64 quotient.  For a length and a rate below
    [2^53] the rounded quotient is under one half exactly when the exact
    one is: the quotient's mantissa has 53 bits, so the comparison with 0.5
    is decided by the exponent [SFdiv] ends with. *)

Lemma digits2_pos_bounds (p : positive) :
  2 ^ (Zpos (digits2_pos p) - 1) <= Zpos p < 2 ^ Zpos (digits2_pos p).
Proof.
  induction p as [p IH|p IH|]; cbn [digits2_pos].
  - rewrite Pos2Z.inj_succ.
    replace (Z.succ (Zpos (digits2_pos p)) - 1)
      with (Z.succ (Zpos (digits2_pos p) - 1)) by lia.
    rewrite !Z.pow_succ_r by lia. lia.
  - rewrite Pos2Z.inj_succ.
    replace (Z.succ (Zpos (digits2_pos p)) - 1)
      with (Z.succ (Zpos (digits2_pos p) - 1)) by lia.
    rewrite !Z.pow_succ_r by lia. lia.
  - simpl. lia.
Qed.

Lemma digits2_pos_eq (p : positive) (d : Z) :
  2 ^ (d - 1) <= Zpos p < 2 ^ d -> 0 < d -> Zpos (digits2_pos p) = d.
Proof.
  intros [H1 H2] Hd. pose proof (digits2_pos_bounds p) as [B1 B2].
  set (c := Zpos (digits2_pos p)) in *. assert (0 < c) by (unfold c; lia).
  destruct (Z.lt_trichotomy c d) as [L|[E|G]]; [|exact E|].
  - assert (2 ^ c <= 2 ^ (d - 1)) by (apply Z.pow_le_mono_r; lia). lia.
  - assert (2 ^ d <= 2 ^ (c - 1)) by (apply Z.pow_le_mono_r; lia). lia.
Qed.

Lemma shr_fexp_53 (M : positive) (E : Z) (l : location) :
  2 ^ 52 <= Zpos M < 2 ^ 53 -> -1074 <= E ->
  shr_fexp prec emax (Zpos M) E l = (shr_record_of_loc (Zpos M) l, E).
Proof.
  intros HM HE. unfold shr_fexp. cbn [Zdigits2].
  rewrite (digits2_pos_eq M 53 HM) by lia.
  unfold fexp, emin, prec, emax.
  replace (Z.max (53 + E - 53) (3 - 1024 - 53) - E) with 0 by lia.
  reflexivity.
Qed.

Lemma shr_fexp_54 (M : positive) (E : Z) (l : location) :
  2 ^ 53 <= Zpos M < 2 ^ 54 -> -1075 <= E ->
  shr_fexp prec emax (Zpos M) E l
  = (shr_1 (shr_record_of_loc (Zpos M) l), E + 1).
Proof.
  intros HM HE. unfold shr_fexp. cbn [Zdigits2].
  rewrite (digits2_pos_eq M 54 HM) by lia.
  unfold fexp, emin, prec, emax.
  replace (Z.max (54 + E - 53) (3 - 1024 - 53) - E) with 1 by lia.
  reflexivity.
Qed.

Lemma shr_1_halves (M : positive) (l : location) :
  2 <= Zpos M ->
  exists M', shr_m (shr_1 (shr_record_of_loc (Zpos M) l)) = Zpos M'
             /\ 2 * Zpos M' <= Zpos M <= 2 * Zpos M' + 1.
Proof.
  intros HM. destruct M as [p|p|]; [exists p|exists p|lia];
    (split; [destruct l as [|[]]; reflexivity|lia]).
Qed.

Lemma round_nearest_even_cases (M : Z) (l : location) :
  round_nearest_even M l = M \/ round_nearest_even M l = M + 1.
Proof.
  destruct l as [|[]]; simpl; auto. destruct (Z.even M); auto.
Qed.

Lemma loc_of_shr_record_of_loc (M : Z) (l : location) :
  loc_of_shr_record (shr_record_of_loc M l) = l
  /\ shr_m (shr_record_of_loc M l) = M.
Proof. destruct l as [|[]]; split; reflexivity. Qed.

(** The last two steps of [binary_round_aux] on a 53-bit mantissa. *)
Lemma round_finish (M : positive) (E : Z) (l : location) :
  2 ^ 52 <= Zpos M < 2 ^ 53 -> -1074 <= E <= 970 ->
  exists m e,
    (let '(mrs, e'') :=
       shr_fexp prec emax (round_nearest_even (Zpos M) l) E loc_Exact in
     match shr_m mrs with
     | Z0 => S754_zero false
     | Zpos m => if e'' <=? emax - prec then S754_finite false m e''
                 else S754_infinity false
     | Zneg _ => S754_nan
     end) = S754_finite false m e
    /\ 2 ^ 52 <= Zpos m < 2 ^ 53
    /\ (e = E \/ (e = E + 1 /\ Zpos M = 2 ^ 53 - 1)).
Proof.
  intros HM HE.
  destruct (round_nearest_even_cases (Zpos M) l) as [R|R]; rewrite R.
  - rewrite (shr_fexp_53 M E loc_Exact HM) by lia.
    cbn [shr_record_of_loc shr_m].
    exists M, E.
    replace (E <=? emax - prec) with true
      by (symmetry; apply Z.leb_le; unfold emax, prec; lia).
    auto.
  - destruct (Z.eq_dec (Zpos M) (2 ^ 53 - 1)) as [Emax|Hne].
    + rewrite Emax. change (2 ^ 53 - 1 + 1) with (Zpos (2 ^ 53)).
      rewrite (shr_fexp_54 (2 ^ 53) E loc_Exact) by (simpl; lia).
      cbn [shr_record_of_loc shr_1 shr_m orb Pos.pow Pos.iter Pos.mul].
      replace (E + 1 <=? emax - prec) with true
        by (symmetry; apply Z.leb_le; unfold emax, prec; lia).
      eexists _, (E + 1). split; [reflexivity|]. split; [simpl; lia|]. auto.
    + change (Zpos M + 1) with (Zpos (M + 1)).
      rewrite (shr_fexp_53 (M + 1) E loc_Exact) by lia.
      cbn [shr_record_of_loc shr_m]. exists (M + 1)%positive, E.
      replace (E <=? emax - prec) with true
        by (symmetry; apply Z.leb_le; unfold emax, prec; lia).
      split; [reflexivity|]. split; [lia|]. auto.
Qed.

Lemma round_aux_shape (Q : positive) (E : Z) (l : location) :
  2 ^ 52 <= Zpos Q < 2 ^ 54 -> -1074 <= E <= 969 ->
  exists m e,
    binary_round_aux prec emax false (Zpos Q) E l = S754_finite false m e
    /\ 2 ^ 52 <= Zpos m < 2 ^ 53
    /\ ((Zpos Q < 2 ^ 53 /\ (e = E \/ (e = E + 1 /\ Zpos Q = 2 ^ 53 - 1)))
        \/ (2 ^ 53 <= Zpos Q
            /\ (e = E + 1 \/ (e = E + 2 /\ 2 ^ 54 - 2 <= Zpos Q)))).
Proof.
  intros HQ HE. unfold binary_round_aux.
  destruct (Z.lt_ge_cases (Zpos Q) (2 ^ 53)) as [Hlt|Hge].
  - rewrite (shr_fexp_53 Q E l) by lia.
    destruct (loc_of_shr_record_of_loc (Zpos Q) l) as [-> ->].
    destruct (round_finish Q E l ltac:(lia) ltac:(lia))
      as (m & e & Hr & Hm & He).
    exists m, e. split; [exact Hr|]. split; [exact Hm|]. left. auto.
  - rewrite (shr_fexp_54 Q E l) by lia.
    destruct (shr_1_halves Q l ltac:(lia)) as (M' & -> & HM').
    destruct (round_finish M' (E + 1)
                (loc_of_shr_record (shr_1 (shr_record_of_loc (Zpos Q) l)))
                ltac:(lia) ltac:(lia))
      as (m & e & Hr & Hm & He).
    exists m, e. split; [exact Hr|]. split; [exact Hm|]. right.
    split; [exact Hge|]. destruct He as [He|[He HM]]; [left; exact He|].
    right. split; lia.
Qed.

Lemma pow2_lt_inv (x y : Z) : 0 <= y -> 2 ^ x < 2 ^ y -> x < y.
Proof. intros Hy H. apply (Z.pow_lt_mono_r_iff 2); [lia|exact Hy|exact H]. Qed.

(** The quotient of two integers below [2^53], as [SFdiv] rounds it, lies
    under one half exactly when twice the dividend is under the divisor. *)
Lemma SFdiv_int_shape (a b : positive) :
  Zpos a < 2 ^ 53 -> Zpos b < 2 ^ 53 ->
  exists m e,
    SFdiv prec emax (S754_finite false a 0) (S754_finite false b 0)
    = S754_finite false m e
    /\ 2 ^ 52 <= Zpos m < 2 ^ 53
    /\ (e <= -54 <-> 2 * Zpos a < Zpos b).
Proof.
  intros Ha Hb. unfold SFdiv, SFdiv_core_binary. cbn [Zdigits2 xorb].
  pose proof (digits2_pos_bounds a) as [A1 A2].
  pose proof (digits2_pos_bounds b) as [B1 B2].
  set (d1 := Zpos (digits2_pos a)) in *. set (d2 := Zpos (digits2_pos b)) in *.
  assert (Hd1 : 1 <= d1 <= 53).
  { split; [unfold d1; lia|].
    assert (d1 - 1 < 53) by (apply pow2_lt_inv; lia). lia. }
  assert (Hd2 : 1 <= d2 <= 53).
  { split; [unfold d2; lia|].
    assert (d2 - 1 < 53) by (apply pow2_lt_inv; lia). lia. }
  set (s := 53 + d2 - d1).
  replace (Z.min (fexp prec emax (d1 + 0 - (d2 + 0))) (0 - 0)) with (- s)
    by (unfold fexp, emin, prec, emax, s; lia).
  replace (0 - 0 - - s) with s by lia.
  assert (Hs : 1 <= s <= 105) by (unfold s; lia).
  destruct s as [|ps|ps] eqn:Es; try lia. rewrite <- Es in *.
  rewrite Z.shiftl_mul_pow2 by lia.
  set (S := 2 ^ s).
  assert (HS : 0 < S) by (apply Z.pow_pos_nonneg; lia).
  assert (HP : 2 ^ (d1 - 1) * S = 2 ^ 53 * 2 ^ (d2 - 1)).
  { unfold S. rewrite <- !Z.pow_add_r by lia. f_equal. unfold s. lia. }
  assert (A2' : Zpos a < 2 * 2 ^ (d1 - 1)).
  { replace d1 with (Z.succ (d1 - 1)) in A2 by lia.
    rewrite Z.pow_succ_r in A2 by lia. exact A2. }
  assert (B2' : Zpos b < 2 * 2 ^ (d2 - 1)).
  { replace d2 with (Z.succ (d2 - 1)) in B2 by lia.
    rewrite Z.pow_succ_r in B2 by lia. exact B2. }
  pose proof (Z_div_mod (Zpos a * S) (Zpos b) ltac:(lia)) as Hdm.
  destruct (Z.div_eucl (Zpos a * S) (Zpos b)) as [q r].
  destruct Hdm as [Hq Hr].
  assert (L1 : 2 ^ (d1 - 1) * S <= Zpos a * S)
    by (apply Z.mul_le_mono_nonneg_r; lia).
  assert (L2 : Zpos a * S < 2 * 2 ^ (d1 - 1) * S)
    by (apply Z.mul_lt_mono_pos_r; lia).
  assert (Hq52 : 2 ^ 52 <= q < 2 ^ 54) by nia.
  destruct q as [|Q|Q]; try lia.
  destruct (round_aux_shape Q (- s) (new_location (Zpos b) r)
              ltac:(lia) ltac:(lia))
    as (m & e & Hres & Hm & He).
  exists m, e. split; [exact Hres|]. split; [exact Hm|].
  assert (Hup : forall k, 0 <= k -> s <= k -> S <= 2 ^ k)
    by (intros; apply Z.pow_le_mono_r; lia).
  assert (Hlo : forall k, 0 <= k -> k <= s -> 2 ^ k <= S)
    by (intros; apply Z.pow_le_mono_r; lia).
  split.
  - intros Hle.
    destruct (Z.lt_ge_cases (2 * Zpos a) (Zpos b)) as [H|H]; [exact H|].
    exfalso.
    assert (HSq : S < 2 * (Zpos Q + 1)) by nia.
    destruct He as [[Hlt He]|[Hge He]].
    + destruct (Z.le_gt_cases s 53) as [Hs53|Hs53]; [lia|].
      specialize (Hlo 54 ltac:(lia) ltac:(lia)). lia.
    + destruct (Z.le_gt_cases s 54) as [Hs54|Hs54]; [lia|].
      specialize (Hlo 55 ltac:(lia) ltac:(lia)). lia.
  - intros H.
    assert (HSq : 2 * Zpos Q * Zpos b <= (Zpos b - 1) * S) by nia.
    assert (HSq' : 2 * Zpos Q < S) by nia.
    destruct He as [[Hlt He]|[Hge He]].
    + assert (Hs54 : 54 <= s).
      { destruct (Z.le_gt_cases 54 s) as [Hs'|Hs']; [exact Hs'|].
        specialize (Hup 53 ltac:(lia) ltac:(lia)). lia. }
      destruct He as [He|[He HQ]]; [lia|].
      assert (Hs55 : 55 <= s).
      { destruct (Z.le_gt_cases 55 s) as [Hs'|Hs']; [exact Hs'|].
        assert (S = 2 ^ 54) by (unfold S; f_equal; lia). nia. }
      lia.
    + assert (Hs55 : 55 <= s).
      { destruct (Z.le_gt_cases 55 s) as [Hs'|Hs']; [exact Hs'|].
        specialize (Hup 54 ltac:(lia) ltac:(lia)). lia. }
      destruct He as [He|[He HQ]]; [lia|].
      assert (Hs56 : 56 <= s).
      { destruct (Z.le_gt_cases 56 s) as [Hs'|Hs']; [exact Hs'|].
        assert (S = 2 ^ 55) by (unfold S; f_equal; lia). nia. }
      lia.
Qed.

Lemma int_truediv_lt_half (n sr : Z) :
  0 <= n < 2 ^ 53 -> 0 < sr < 2 ^ 53 ->
  exists d, int_truediv n sr = Ok d
            /\ (ltb d (decimal 5 1) = true <-> 2 * n < sr).
Proof.
  intros Hn Hsr. unfold int_truediv.
  destruct sr as [|b|b]; try lia.
  destruct n as [|a|a]; try lia.
  - eexists. split; [reflexivity|]. split; [lia|reflexivity].
  - change (Z.pos a <? 0) with false. change (Z.pos b <? 0) with false.
    cbn [Z.abs Z.to_pos].
    destruct (SFdiv_int_shape a b ltac:(lia) ltac:(lia))
      as (m & e & -> & Hm & He).
    cbn [is_finite]. eexists. split; [reflexivity|].
    rewrite ltb_iff.
    change (decimal 5 1) with (S754_finite false 4503599627370496 (-53)).
    cbn [is_nan key]. unfold lex_lt.
    change (2 ^ 52) with 4503599627370496 in Hm.
    rewrite <- He. intuition lia.
Qed.

(** C3. When the duration [len(y) / sr] is below 0.5 the analysis raises
    the InsufficientAudio error, whatever the samples and whatever the
    estimator would answer; when it is not below 0.5 the analysis never
    raises that error.  The duration is the quotient as Python rounds it;
    for a length and a positive rate under [2^53] it is below 0.5 exactly
    when [2 * len(y) < sr]. *)
Theorem analyze_pitch_insufficient_audio
    (yin : list float -> Z -> string + list float)
    (y : list float) (sr : Z) (duration : float) :
  int_truediv (Z.of_nat (List.length y)) sr = Ok duration ->
  (ltb duration (decimal 5 1) = true ->
     analyze_pitch yin y sr = Raise (ValueError InsufficientAudio)
     /\ forall y' : list float, List.length y' = List.length y ->
          analyze_pitch yin y' sr = Raise (ValueError InsufficientAudio))
  /\ (ltb duration (decimal 5 1) = false ->
       analyze_pitch yin y sr <> Raise (ValueError InsufficientAudio))
  /\ (0 < sr < 2 ^ 53 -> Z.of_nat (List.length y) < 2 ^ 53 ->
       (ltb duration (decimal 5 1) = true
        <-> 2 * Z.of_nat (List.length y) < sr)).
Proof.
  intros Hd. split; [|split].
  - intros Hlt.
    split; [|intros y' Hlen]; rewrite analyze_pitch_eq;
      [|rewrite Hlen]; rewrite Hd, Hlt; reflexivity.
  - intros Hlt. rewrite analyze_pitch_eq, Hd, Hlt.
    destruct (yin y sr) as [w|frames]; [discriminate|].
    destruct (filter voiced frames); discriminate.
  - intros Hsr Hlen.
    destruct (int_truediv_lt_half (Z.of_nat (List.length y)) sr
                ltac:(lia) Hsr) as (d & Hd' & Hiff).
    rewrite Hd in Hd'. injection Hd' as <-. exact Hiff.
Qed.


(** C6. For a buffer that is long enough and the frames the estimator
    returned: when a frame is finite and strictly positive, the analysis
    returns the series of the frames that are finite and strictly
    positive, in the order of the frames: every element of the series is
    finite and above zero, the series is the frames with some elements
    left out, every such selection of finite and positive frames is
    within it, and a frame is in it exactly when it is finite and above
    zero; when no frame is, the series is empty and the analysis raises
    the NoPitchDetected error. *)
Theorem voiced_series_of_frames
    (yin : list float -> Z -> string + list float)
    (y : list float) (sr : Z) (duration : float) (frames : list float) :
  int_truediv (Z.of_nat (List.length y)) sr = Ok duration ->
  ltb duration (decimal 5 1) = false ->
  yin y sr = inr frames ->
  ((exists f, In f frames /\ is_finite f = true /\ ltb (of_Z 0) f = true) ->
   exists median series,
     analyze_pitch yin y sr = Ok (median, series)
     /\ series = filter (fun f => is_finite f && ltb (of_Z 0) f) frames
     /\ Forall (fun f => is_finite f = true /\ ltb (of_Z 0) f = true) series
     /\ subseq series frames
     /\ (forall s,
           subseq s frames ->
           Forall (fun f => is_finite f = true /\ ltb (of_Z 0) f = true) s ->
           subseq s series)
     /\ (forall f, In f series <->
                   In f frames /\ is_finite f = true
                   /\ ltb (of_Z 0) f = true))
  /\ ((forall f, In f frames -> is_finite f = true ->
                  ltb (of_Z 0) f = false) ->
      analyze_pitch yin y sr = Raise (ValueError NoPitchDetected)).
Proof.
  intros Hd Hlt Hy. split.
  - intros Hf.
    destruct (analyze_pitch_success yin y sr duration frames Hd Hlt Hy Hf)
      as [E _].
    exists (np_median (filter voiced frames)), (filter voiced frames).
    split; [exact E|]. split; [reflexivity|]. split.
    { apply Forall_forall. intros f Hin. apply filter_In in Hin.
      apply voiced_iff. apply Hin. }
    split; [apply filter_subseq|]. split.
    + intros s Hs Hv. apply subseq_filter_max; [exact Hs|].
      revert Hv. apply Forall_impl. intros f. apply voiced_iff.
    + intros f. rewrite filter_In, voiced_iff. reflexivity.
  - apply (analyze_pitch_unvoiced yin y sr duration frames Hd Hlt Hy).
Qed.

(** ** Sorting and the median *)

Lemma voiced_finite_pos (x : float) :
  voiced x = true -> exists m e, x = S754_finite false m e.
Proof.
  destruct x as [s|s| |[] m e]; try discriminate.
  intros _. exists m, e. reflexivity.
Qed.

Lemma voiced_not_nan (x : float) : voiced x = true -> is_nan x = false.
Proof.
  intros H. destruct (voiced_finite_pos x H) as (m & e & ->). reflexivity.
Qed.

Lemma leb_total (x y : float) :
  is_nan x = false -> is_nan y = false -> leb x y = true \/ leb y x = true.
Proof.
  intros Hx Hy. rewrite !leb_iff. unfold lex_le.
  destruct (key x) as [[c1 e1] m1], (key y) as [[c2 e2] m2].
  assert (H : (c1 < c2 \/ c1 = c2 /\ (e1 < e2 \/ e1 = e2 /\ m1 <= m2))
              \/ (c2 < c1 \/ c2 = c1 /\ (e2 < e1 \/ e2 = e1 /\ m2 <= m1)))
    by lia.
  destruct H; [left|right]; repeat split; assumption.
Qed.

Lemma leb_antisym (x y : float) :
  voiced x = true -> voiced y = true ->
  leb x y = true -> leb y x = true -> x = y.
Proof.
  intros Hx Hy.
  destruct (voiced_finite_pos x Hx) as (m1 & e1 & ->).
  destruct (voiced_finite_pos y Hy) as (m2 & e2 & ->).
  rewrite !leb_iff. unfold lex_le, key.
  intros (_ & _ & H1) (_ & _ & H2).
  assert (e1 = e2) by lia. assert (Zpos m1 = Zpos m2) by lia.
  congruence.
Qed.

#[local] Instance le_trans : Transitive le.
Proof. intros x y z. apply leb_trans. Qed.

Lemma insert_perm (x : float) (l : list float) :
  Permutation (x :: l) (insert x l).
Proof.
  induction l as [|h t IH]; simpl.
  - apply Permutation_refl.
  - destruct (sort_leb x h).
    + apply Permutation_refl.
    + apply perm_trans with (h :: x :: t); [apply perm_swap|].
      apply perm_skip. exact IH.
Qed.

Lemma sort_perm (l : list float) : Permutation l (sort l).
Proof.
  induction l as [|x l IH]; simpl.
  - apply perm_nil.
  - apply perm_trans with (x :: sort l); [apply perm_skip; exact IH|].
    apply insert_perm.
Qed.

Lemma insert_sorted (x : float) (l : list float) :
  is_nan x = false -> Forall (fun f => is_nan f = false) l ->
  Sorted le l -> Sorted le (insert x l).
Proof.
  intros Hx Hl Hs. induction Hs as [|h t Hs IH Hd]; simpl.
  - repeat constructor.
  - assert (Hh : is_nan h = false) by (inversion Hl; assumption).
    assert (Ht : Forall (fun f => is_nan f = false) t)
      by (inversion Hl; assumption).
    unfold sort_leb. rewrite Hh. cbn [orb].
    destruct (leb x h) eqn:E.
    + constructor; [constructor; assumption|]. constructor. exact E.
    + assert (Hhx : le h x).
      { destruct (leb_total x h Hx Hh) as [H|H]; [congruence|exact H]. }
      constructor; [apply IH; exact Ht|].
      destruct t as [|h' t']; simpl.
      * constructor. exact Hhx.
      * destruct (sort_leb x h'); constructor; [exact Hhx|].
        inversion Hd; assumption.
Qed.

Lemma sort_sorted (l : list float) :
  Forall (fun f => is_nan f = false) l -> Sorted le (sort l).
Proof.
  induction l as [|x l IH]; simpl; intros Hl.
  - constructor.
  - inversion Hl as [|? ? Hx Hl']; subst.
    apply insert_sorted; [exact Hx| |apply IH; exact Hl'].
    apply Forall_forall. intros f Hf.
    apply (Permutation_in f (Permutation_sym (sort_perm l))) in Hf.
    exact (proj1 (Forall_forall _ _) Hl' f Hf).
Qed.

(** A list of voiced frames has one sorted arrangement only. *)
Lemma sorted_perm_unique (s s' : list float) :
  Forall (fun f => voiced f = true) s ->
  Sorted le s -> Sorted le s' -> Permutation s s' -> s = s'.
Proof.
  intros Hv Hs Hs'.
  apply Sorted_StronglySorted in Hs; [|exact le_trans].
  apply Sorted_StronglySorted in Hs'; [|exact le_trans].
  revert s' Hs'. induction Hs as [|a t Hs IH Ha]; intros s' Hs' Hp.
  - apply Permutation_nil in Hp. symmetry. exact Hp.
  - destruct Hs' as [|b t' Hs' Hb].
    + apply Permutation_sym, Permutation_nil in Hp. discriminate Hp.
    + inversion Hv as [|? ? Hva Hvt]; subst.
      assert (Hina : In a (b :: t'))
        by (apply (Permutation_in a Hp); left; reflexivity).
      assert (Hinb : In b (a :: t))
        by (apply (Permutation_in b (Permutation_sym Hp)); left; reflexivity).
      assert (Hvb : voiced b = true)
        by exact (proj1 (Forall_forall _ _) Hv b Hinb).
      assert (Hab : a = b).
      { destruct Hina as [E|Hina]; [symmetry; exact E|].
        destruct Hinb as [E|Hinb]; [exact E|].
        apply leb_antisym; trivial.
        - exact (proj1 (Forall_forall _ _) Ha b Hinb).
        - exact (proj1 (Forall_forall _ _) Hb a Hina). }
      subst b. f_equal. apply IH; trivial.
      apply Permutation_cons_inv with a. exact Hp.
Qed.

Lemma Forall_voiced_not_nan (l : list float) :
  Forall (fun f => voiced f = true) l ->
  Forall (fun f => is_nan f = false) l.
Proof.
  apply Forall_impl. exact voiced_not_nan.
Qed.

Lemma existsb_nan_voiced (l : list float) :
  Forall (fun f => voiced f = true) l -> existsb is_nan l = false.
Proof.
  induction 1 as [|x l Hx _ IH]; simpl; [reflexivity|].
  rewrite (voiced_not_nan x Hx). exact IH.
Qed.

(** The sorted copy [np.median] works on is the sorted arrangement. *)
Lemma sort_is_sorted_arrangement (series sorted : list float) :
  Forall (fun f => voiced f = true) series ->
  Permutation sorted series -> Sorted le sorted -> sort series = sorted.
Proof.
  intros Hv Hp Hs. symmetry. apply sorted_perm_unique; trivial.
  - apply Forall_forall. intros f Hf.
    apply (Permutation_in f Hp) in Hf.
    exact (proj1 (Forall_forall _ _) Hv f Hf).
  - apply sort_sorted, Forall_voiced_not_nan, Hv.
  - apply perm_trans with series; [exact Hp|apply sort_perm].
Qed.

Lemma np_median_odd (series sorted : list float) (k : nat) :
  Forall (fun f => voiced f = true) series ->
  Permutation sorted series -> Sorted le sorted ->
  List.length series = (2 * k + 1)%nat ->
  np_median series = nth k sorted nan.
Proof.
  intros Hv Hp Hs Hlen. unfold np_median.
  rewrite (existsb_nan_voiced series Hv), Hlen.
  rewrite (sort_is_sorted_arrangement series sorted Hv Hp Hs).
  assert (E1 : Nat.even (2 * k + 1) = false)
    by (rewrite Nat.even_add, Nat.even_mul; reflexivity).
  assert (E2 : ((2 * k + 1 - 1) / 2)%nat = k).
  { replace (2 * k + 1 - 1)%nat with (k * 2)%nat by lia.
    apply Nat.div_mul. discriminate. }
  rewrite E1, E2. destruct (2 * k + 1)%nat eqn:E; [lia|reflexivity].
Qed.

Lemma np_median_even (series sorted : list float) (k : nat) :
  Forall (fun f => voiced f = true) series ->
  Permutation sorted series -> Sorted le sorted ->
  List.length series = (2 * k + 2)%nat ->
  np_median series
  = div (add (nth k sorted nan) (nth (k + 1) sorted nan)) (of_Z 2).
Proof.
  intros Hv Hp Hs Hlen. unfold np_median.
  rewrite (existsb_nan_voiced series Hv), Hlen.
  rewrite (sort_is_sorted_arrangement series sorted Hv Hp Hs).
  assert (E1 : Nat.even (2 * k + 2) = true)
    by (rewrite Nat.even_add, Nat.even_mul; reflexivity).
  assert (E2 : ((2 * k + 2) / 2)%nat = (k + 1)%nat).
  { replace (2 * k + 2)%nat with ((k + 1) * 2)%nat by lia.
    apply Nat.div_mul. discriminate. }
  rewrite E1, E2. replace (k + 1 - 1)%nat with k by lia.
  destruct (2 * k + 2)%nat eqn:E; [lia|reflexivity].
Qed.

Lemma analyze_pitch_Ok (yin : list float -> Z -> string + list float)
    (y : list float) (sr : Z) (median : float) (series : list float) :
  analyze_pitch yin y sr = Ok (median, series) ->
  exists frames,
    yin y sr = inr frames /\ series = filter voiced frames
    /\ series <> [] /\ median = np_median series.
Proof.
  rewrite analyze_pitch_eq.
  destruct (int_truediv _ sr) as [d|e]; [|discriminate].
  destruct (ltb d _); [discriminate|].
  destruct (yin y sr) as [w|frames]; [discriminate|].
  destruct (filter voiced frames) as [|x s] eqn:E; [discriminate|].
  intros H. injection H as <- <-. exists frames.
  split; [reflexivity|]. split; [symmetry; exact E|].
  split; [discriminate|reflexivity].
Qed.

Lemma filter_voiced_Forall (frames : list float) :
  Forall (fun f => voiced f = true) (filter voiced frames).
Proof.
  apply Forall_forall. intros f Hf. apply filter_In in Hf. apply Hf.
Qed.

(** C2. For a buffer that is long enough and frames of which one at least
    is finite and strictly positive, the analysis returns the series of
    these frames, which is not empty, and, as representative pitch, its
    median: with any sorted arrangement of the series, the middle element
    when the length is odd and the average of the two central elements
    when it is even; the series 100, 200, 300, 400 gives 250.0. *)
Theorem representative_pitch_is_median
    (yin : list float -> Z -> string + list float)
    (y : list float) (sr : Z) (duration : float) (frames : list float) :
  int_truediv (Z.of_nat (List.length y)) sr = Ok duration ->
  ltb duration (decimal 5 1) = false ->
  yin y sr = inr frames ->
  (exists f, In f frames /\ is_finite f = true /\ ltb (of_Z 0) f = true) ->
  (exists median series,
     analyze_pitch yin y sr = Ok (median, series)
     /\ series = filter (fun f => is_finite f && ltb (of_Z 0) f) frames
     /\ series <> []
     /\ forall (sorted : list float) (k : nat),
          Permutation sorted series -> Sorted le sorted ->
          (List.length series = (2 * k + 1)%nat ->
             median = nth k sorted nan)
          /\ (List.length series = (2 * k + 2)%nat ->
              median
              = div (add (nth k sorted nan) (nth (k + 1) sorted nan))
                    (of_Z 2)))
  /\ analyze_pitch yin_four_frames one_second_of_silence 44100
     = Ok (decimal 2500 1, [of_Z 100; of_Z 200; of_Z 300; of_Z 400]).
Proof.
  intros Hd Hlt Hy Hf. split; [|vm_compute; reflexivity].
  destruct (analyze_pitch_success yin y sr duration frames Hd Hlt Hy Hf)
    as [E Hne].
  exists (np_median (filter voiced frames)), (filter voiced frames).
  split; [exact E|]. split; [reflexivity|]. split; [exact Hne|].
  intros sorted k Hp Hs.
  pose proof (filter_voiced_Forall frames) as Hv.
  split; [apply np_median_odd|apply np_median_even]; assumption.
Qed.

(** ** Rounding to two decimals *)

Lemma round_half_even_nearest (n d : Z) :
  0 < d -> 2 * Z.abs (n - d * round_half_even n d) <= d.
Proof.
  intros Hd. unfold round_half_even.
  pose proof (Z.div_mod n d ltac:(lia)) as E.
  pose proof (Z.mod_pos_bound n d Hd) as B.
  destruct (Z.compare_spec (2 * (n mod d)) d);
    [destruct (Z.even (n / d))| |]; lia.
Qed.

(** The number of hundredths [py_round2] keeps is nearest to the exact
    value: at most half a hundredth away from it. *)
Lemma hundredths_nearest (m : positive) (e : Z) :
  (0 <= e -> hundredths m e = 100 * Zpos m * 2 ^ e)
  /\ (e < 0 ->
      2 * Z.abs (100 * Zpos m - 2 ^ (- e) * hundredths m e) <= 2 ^ (- e)).
Proof.
  split; intros He.
  - destruct e as [|p|p]; try reflexivity. lia.
  - destruct e as [|p|p]; try lia.
    unfold hundredths. rewrite Z.pow_pos_fold.
    change (- Z.neg p) with (Z.pos p).
    apply round_half_even_nearest. apply Z.pow_pos_nonneg; lia.
Qed.

Lemma round_half_even_tie (n d : Z) :
  0 < d -> 2 * Z.abs (n - d * round_half_even n d) = d ->
  Z.even (round_half_even n d) = true.
Proof.
  intros Hd. unfold round_half_even.
  pose proof (Z.div_mod n d ltac:(lia)) as E.
  pose proof (Z.mod_pos_bound n d Hd) as B.
  destruct (Z.compare_spec (2 * (n mod d)) d) as [H|H|H]; try lia.
  destruct (Z.even (n / d)) eqn:Ev; intros _; [exact Ev|].
  rewrite Z.add_1_r, Z.even_succ, <- Z.negb_even, Ev. reflexivity.
Qed.

Lemma round_half_even_nonneg (n d : Z) :
  0 <= n -> 0 < d -> 0 <= round_half_even n d.
Proof.
  intros Hn Hd. unfold round_half_even.
  pose proof (Z.div_pos n d Hn Hd).
  destruct (2 * (n mod d) ?= d); [destruct (Z.even (n / d))| |]; lia.
Qed.

Lemma nearest_tie_step (n d a b : Z) :
  0 < d -> a < b ->
  2 * Z.abs (n - d * a) <= d -> 2 * Z.abs (n - d * b) <= d ->
  b = a + 1 /\ 2 * Z.abs (n - d * a) = d /\ 2 * Z.abs (n - d * b) = d.
Proof.
  intros Hd Hab Ha Hb.
  assert (Hk : b = a + 1).
  { destruct (Z_le_gt_dec b (a + 1)) as [H|H]; [lia|].
    assert (d * 2 <= d * (b - a)) by (apply Z.mul_le_mono_nonneg_l; lia).
    lia. }
  subst b. split; [reflexivity|].
  replace (d * (a + 1)) with (d * a + d) in * by ring. lia.
Qed.

(** One integer only is the nearest, ties to even. *)
Lemma nearest_hundredths_unique (m : positive) (e N N' : Z) :
  nearest_hundredths m e N -> nearest_hundredths m e N' -> N = N'.
Proof.
  intros (_ & H0 & H1) (_ & H0' & H1').
  destruct (Z_lt_le_dec e 0) as [He|He].
  - destruct (H1 He) as [B T]. destruct (H1' He) as [B' T'].
    assert (Hd : 0 < 2 ^ (- e)) by (apply Z.pow_pos_nonneg; lia).
    destruct (Z.lt_trichotomy N N') as [L|[E|L]]; [|exact E|].
    + destruct (nearest_tie_step _ _ _ _ Hd L B B') as (-> & E1 & E2).
      specialize (T E1). specialize (T' E2).
      rewrite Z.add_1_r, Z.even_succ, <- Z.negb_even, T in T'.
      discriminate T'.
    + destruct (nearest_tie_step _ _ _ _ Hd L B' B) as (-> & E1 & E2).
      specialize (T E2). specialize (T' E1).
      rewrite Z.add_1_r, Z.even_succ, <- Z.negb_even, T' in T.
      discriminate T.
  - rewrite (H0 He), (H0' He). reflexivity.
Qed.

Lemma py_round2_nearest (s : bool) (m : positive) (e : Z) :
  nearest_hundredths m e (hundredths m e)
  /\ py_round2 (S754_finite s m e)
     = (if hundredths m e =? 0 then S754_zero s
        else decimal (if s then - hundredths m e else hundredths m e) 2).
Proof.
  assert (Hn : 0 <= hundredths m e).
  { destruct e as [|p|p]; unfold hundredths.
    - lia.
    - pose proof (Z.pow_nonneg 2 (Z.pos p) ltac:(lia)).
      apply Z.mul_nonneg_nonneg; lia.
    - apply round_half_even_nonneg; [lia|].
      rewrite Z.pow_pos_fold. apply Z.pow_pos_nonneg; lia. }
  split.
  - split; [exact Hn|]. split.
    + apply hundredths_nearest.
    + intros He. split; [apply hundredths_nearest; exact He|].
      destruct e as [|p|p]; try lia.
      unfold hundredths. rewrite Z.pow_pos_fold.
      change (- Z.neg p) with (Z.pos p).
      apply round_half_even_tie. apply Z.pow_pos_nonneg; lia.
  - unfold py_round2. destruct (hundredths m e); [reflexivity| |lia].
    destruct s; reflexivity.
Qed.

(** ** The composed result *)

(** C7. When the pitch analysis succeeds, the endpoint succeeds, and its
    result holds the label of the category chosen for the median, the
    whole series the analysis returned, which is the voiced frames in
    their order and the series the median was computed from, and the
    median rounded to two decimals: for a finite median of mantissa [m]
    and exponent [e], with [N] the integer nearest to [100 * m * 2^e],
    ties to even, the float of the decimal [N / 100] with the sign of the
    median, the zero of this sign when [N] is 0; a zero, infinite or NaN
    median is reported as it is. *)
Theorem analyze_result_composition
    (yin : list float -> Z -> string + list float)
    (y : list float) (sr : Z) (gender : string) (start_time now : Z)
    (median : float) (series : list float) :
  analyze_pitch yin y sr = Ok (median, series) ->
  exists body,
    analyze yin y sr gender start_time now = Success body
    /\ body_voice_type body = value (classify_voice median gender)
    /\ body_pitch_series body = series
    /\ body_processing_time body = now - start_time
    /\ median = np_median series
    /\ (exists frames,
          yin y sr = inr frames
          /\ series = filter (fun f => is_finite f && ltb (of_Z 0) f) frames
          /\ subseq series frames)
    /\ (forall s m e, median = S754_finite s m e ->
          exists N,
            nearest_hundredths m e N
            /\ body_average_pitch body
               = (if N =? 0 then S754_zero s
                  else decimal (if s then - N else N) 2))
    /\ ((forall s m e, median <> S754_finite s m e) ->
        body_average_pitch body = median).
Proof.
  intros H.
  destruct (analyze_pitch_Ok yin y sr median series H)
    as (frames & Hy & Hs & _ & Hm).
  eexists. split; [unfold analyze; rewrite H; reflexivity|].
  cbn [body_voice_type body_pitch_series body_processing_time
       body_average_pitch voice_type average_pitch processing_time].
  split; [reflexivity|]. split; [reflexivity|]. split; [reflexivity|].
  split; [exact Hm|]. split.
  { exists frames. split; [exact Hy|]. rewrite Hs.
    split; [reflexivity|apply filter_subseq]. }
  split.
  - intros s m e ->. exists (hundredths m e). apply py_round2_nearest.
  - intros Hn. destruct median as [s|s| |s m e]; try reflexivity.
    destruct (Hn s m e eq_refl).
Qed.

(** C9. Two runs on the same buffer, rate and gender give the same
    answer but for the processing time, whatever the clock reads: the same
    label, the same rounded pitch and the same series, or the same
    error. *)
Theorem analyze_deterministic
    (yin : list float -> Z -> string + list float)
    (y : list float) (sr : Z) (gender : string)
    (start_time now start_time' now' : Z) :
  content (analyze yin y sr gender start_time now)
  = content (analyze yin y sr gender start_time' now').
Proof.
  unfold analyze.
  destruct (analyze_pitch yin y sr) as [[median series]|e].
  - reflexivity.
  - destruct e; reflexivity.
Qed.

(** C10. The category is chosen from the median as it is, the reported
    pitch is the median rounded to two decimals; for the median 449.996
    and the gender "female" the reported pitch is 450.0, inside the
    Soprano band, and the category is Mezzo-soprano. *)
Theorem category_from_unrounded_median :
  (forall yin y sr gender start_time now median series,
      analyze_pitch yin y sr = Ok (median, series) ->
      exists body,
        analyze yin y sr gender start_time now = Success body
        /\ body_voice_type body = value (classify_voice median gender)
        /\ body_average_pitch body = py_round2 median)
  /\ (let median := decimal 449996 3 in
      py_round2 median = of_Z 450
      /\ in_cc 450 1100 (py_round2 median)
      /\ classify_voice (py_round2 median) "female" = SOPRANO
      /\ classify_voice median "female" = MEZZO_SOPRANO
      /\ forall start_time now,
           analyze yin_one_frame [zero] 1 "female" start_time now
           = Success {| body_voice_type := "Mezzo-soprano";
                        body_average_pitch := of_Z 450;
                        body_pitch_series := [decimal 449996 3];
                        body_processing_time := now - start_time |}).
Proof.
  split.
  - intros yin y sr gender start_time now median series H.
    eexists. split; [unfold analyze; rewrite H; reflexivity|].
    split; reflexivity.
  - cbv zeta.
    assert (Hp : analyze_pitch yin_one_frame [zero] 1
                 = Ok (decimal 449996 3, [decimal 449996 3]))
      by (vm_compute; reflexivity).
    assert (Hr : py_round2 (decimal 449996 3) = of_Z 450)
      by (vm_compute; reflexivity).
    assert (Hc : classify_voice (decimal 449996 3) "female" = MEZZO_SOPRANO)
      by (vm_compute; reflexivity).
    split; [exact Hr|]. rewrite Hr.
    split; [split; vm_compute; reflexivity|].
    split; [vm_compute; reflexivity|].
    split; [exact Hc|].
    intros start_time now. unfold analyze. rewrite Hp.
    cbv beta iota zeta delta [voice_type average_pitch processing_time].
    rewrite Hr, Hc. reflexivity.
Qed.

(** ** The theorems at concrete inputs *)

Lemma analyze_pitch_insufficient_audio_witness :
  analyze_pitch yin_one_frame (repeat zero 3) 8
  = Raise (ValueError InsufficientAudio)
  /\ analyze_pitch yin_one_frame (repeat zero 4) 8
     <> Raise (ValueError InsufficientAudio).
Proof.
  split.
  - refine (proj1 (proj1 (analyze_pitch_insufficient_audio yin_one_frame
                     (repeat zero 3) 8 (decimal 375 3) _) _)).
    + vm_compute. reflexivity.
    + vm_compute. reflexivity.
  - refine (proj1 (proj2 (analyze_pitch_insufficient_audio yin_one_frame
                     (repeat zero 4) 8 (decimal 5 1) _)) _).
    + vm_compute. reflexivity.
    + vm_compute. reflexivity.
Defined.



Lemma voiced_series_of_frames_witness :
  (exists median,
     analyze_pitch yin_mixed one_second_of_silence 44100
     = Ok (median, [of_Z 220; decimal 4405 1; of_Z 220])
     /\ subseq [of_Z 220; decimal 4405 1; of_Z 220] mixed_frames)
  /\ analyze_pitch yin_unvoiced one_second_of_silence 44100
     = Raise (ValueError NoPitchDetected).
Proof.
  split.
  - destruct (proj1 (voiced_series_of_frames yin_mixed
                one_second_of_silence 44100 (of_Z 1) mixed_frames
                ltac:(vm_compute; reflexivity)
                ltac:(vm_compute; reflexivity) eq_refl)
                (ex_intro _ (of_Z 220)
                   (conj (or_intror (or_introl eq_refl))
                         (conj eq_refl eq_refl))))
      as (median & series & E & Hseries & _ & Hsub & _).
    assert (Hs : series = [of_Z 220; decimal 4405 1; of_Z 220])
      by (rewrite Hseries; vm_compute; reflexivity).
    subst series. exists median. split; [exact E|exact Hsub].
  - apply (proj2 (voiced_series_of_frames yin_unvoiced
                one_second_of_silence 44100 (of_Z 1)
                [of_Z 0; nan; of_Z 0]
                ltac:(vm_compute; reflexivity)
                ltac:(vm_compute; reflexivity) eq_refl)).
    intros f [<-|[<-|[<-|[]]]]; intros H; try reflexivity; discriminate H.
Defined.

Lemma representative_pitch_is_median_witness :
  analyze_pitch yin_mixed one_second_of_silence 44100
  = Ok (nth 1 [of_Z 220; of_Z 220; decimal 4405 1] nan,
        [of_Z 220; decimal 4405 1; of_Z 220])
  /\ analyze_pitch yin_four_frames one_second_of_silence 44100
     = Ok (div (add (of_Z 200) (of_Z 300)) (of_Z 2),
           [of_Z 100; of_Z 200; of_Z 300; of_Z 400]).
Proof.
  split.
  - destruct (proj1 (representative_pitch_is_median yin_mixed
                one_second_of_silence 44100 (of_Z 1) mixed_frames
                ltac:(vm_compute; reflexivity)
                ltac:(vm_compute; reflexivity) eq_refl
                (ex_intro _ (of_Z 220)
                   (conj (or_intror (or_introl eq_refl))
                         (conj eq_refl eq_refl)))))
      as (median & series & E & _ & _ & Hmed).
    assert (E' : analyze_pitch yin_mixed one_second_of_silence 44100
                 = Ok (of_Z 220, [of_Z 220; decimal 4405 1; of_Z 220]))
      by (vm_compute; reflexivity).
    assert (Hs : series = [of_Z 220; decimal 4405 1; of_Z 220])
      by (rewrite E' in E; injection E as _ <-; reflexivity).
    subst series.
    destruct (Hmed [of_Z 220; of_Z 220; decimal 4405 1] 1%nat) as [Hodd _].
    + apply perm_skip. apply perm_swap.
    + repeat constructor.
    + rewrite E, (Hodd eq_refl). reflexivity.
  - destruct (proj1 (representative_pitch_is_median yin_four_frames
                one_second_of_silence 44100 (of_Z 1)
                [of_Z 100; of_Z 200; of_Z 300; of_Z 400]
                ltac:(vm_compute; reflexivity)
                ltac:(vm_compute; reflexivity) eq_refl
                (ex_intro _ (of_Z 100)
                   (conj (or_introl eq_refl) (conj eq_refl eq_refl)))))
      as (median & series & E & _ & _ & Hmed).
    assert (E' : analyze_pitch yin_four_frames one_second_of_silence 44100
                 = Ok (decimal 2500 1,
                       [of_Z 100; of_Z 200; of_Z 300; of_Z 400]))
      by (vm_compute; reflexivity).
    assert (Hs : series = [of_Z 100; of_Z 200; of_Z 300; of_Z 400])
      by (rewrite E' in E; injection E as _ <-; reflexivity).
    subst series.
    destruct (Hmed [of_Z 100; of_Z 200; of_Z 300; of_Z 400] 1%nat)
      as [_ Heven].
    + apply Permutation_refl.
    + repeat constructor.
    + rewrite E, (Heven eq_refl). reflexivity.
Defined.

Lemma analyze_result_composition_witness :
  exists body,
    analyze yin_on_silence one_second_of_silence 44100 "female" 10 35
    = Success body
    /\ body_voice_type body = "Soprano"%string
    /\ body_pitch_series body = silence_frames
    /\ body_processing_time body = 25
    /\ body_average_pitch body = decimal 100227 2.
Proof.
  destruct (analyze_result_composition yin_on_silence
              one_second_of_silence 44100 "female" 10 35
              (div (of_Z 44100) (of_Z 44)) silence_frames)
    as (body & E & Hv & Hs & Ht & _ & _ & Hr & _).
  - vm_compute. reflexivity.
  - exists body. split; [exact E|].
    split; [rewrite Hv; vm_compute; reflexivity|]. split; [exact Hs|].
    split; [exact Ht|].
    destruct (Hr false 8816084142713018%positive (-43)
                ltac:(vm_compute; reflexivity))
      as (N & HN & ->).
    assert (EN : N = 100227).
    { apply (nearest_hundredths_unique 8816084142713018 (-43)).
      - exact HN.
      - exact (proj1 (py_round2_nearest false 8816084142713018 (-43))). }
    rewrite EN. reflexivity.
Defined.

(* ================================================================== *)
(** * Further properties of the code *)
(* ================================================================== *)

(** ** [allowed_file] *)

Lemma rsplit1_None (c : ascii) (s : string) :
  rsplit1 c s = None <-> contains c s = false.
Proof.
  induction s as [|a s IH]; simpl; [tauto|].
  destruct (rsplit1 c s) as [[h t]|].
  - split; [discriminate|]. intros H. apply orb_false_iff in H.
    destruct H as [_ H]. apply IH in H. discriminate H.
  - destruct (Ascii.eqb a c); simpl.
    + split; discriminate.
    + split; intros _; [apply IH|]; reflexivity.
Qed.

Lemma rsplit1_Some (c : ascii) (s h t : string) :
  rsplit1 c s = Some (h, t) <->
  s = (h ++ String c t)%string /\ contains c t = false.
Proof.
  split.
  - revert h. induction s as [|a s IH]; simpl; intros h; [discriminate|].
    destruct (rsplit1 c s) as [[h' t']|] eqn:E.
    + intros H. injection H as <- <-.
      destruct (IH h' eq_refl) as [-> Ht]. split; [reflexivity|exact Ht].
    + destruct (Ascii.eqb a c) eqn:Ea; [|discriminate].
      intros H. injection H as <- <-. apply Ascii.eqb_eq in Ea. subst a.
      split; [reflexivity|]. apply rsplit1_None. exact E.
  - intros [-> Ht]. induction h as [|a h IH]; simpl.
    + apply rsplit1_None in Ht. rewrite Ht, Ascii.eqb_refl. reflexivity.
    + rewrite IH. reflexivity.
Qed.

Lemma contains_app (c : ascii) (s t : string) :
  contains c (s ++ t) = contains c s || contains c t.
Proof.
  induction s as [|a s IH]; simpl; [reflexivity|].
  rewrite IH. apply orb_assoc.
Qed.

Lemma allowed_extension_In (ext : string) :
  existsb (String.eqb (lower ext)) Config.ALLOWED_EXTENSIONS = true
  <-> In (lower ext) Config.ALLOWED_EXTENSIONS.
Proof.
  rewrite existsb_exists. split.
  - intros (x & Hx & E). apply String.eqb_eq in E. rewrite E. exact Hx.
  - intros H. exists (lower ext). split; [exact H|apply String.eqb_refl].
Qed.

(** A name is decided by what follows its last dot. *)
Lemma allowed_file_app (stem ext : string) :
  contains "." ext = false ->
  allowed_file (stem ++ "." ++ ext)
  = existsb (String.eqb (lower ext)) Config.ALLOWED_EXTENSIONS.
Proof.
  intros Hext. unfold allowed_file.
  rewrite (proj2 (rsplit1_Some "." (stem ++ "." ++ ext) stem ext)).
  - rewrite contains_app. simpl. rewrite orb_true_r. reflexivity.
  - split; [reflexivity|exact Hext].
Qed.

(** X1. [allowed_file] accepts a name exactly when it reads
    [stem.extension] with an extension that holds no dot and lowers to
    aac, wav, mp3 or ogg: a name without a dot, a name ending in a dot and
    a name whose last extension is another one are refused. *)
Theorem allowed_file_iff (filename : string) :
  allowed_file filename = true <->
  exists stem ext : string,
    filename = (stem ++ "." ++ ext)%string
    /\ contains "." ext = false
    /\ In (lower ext) Config.ALLOWED_EXTENSIONS.
Proof.
  split.
  - unfold allowed_file. intros H. apply andb_true_iff in H.
    destruct H as [_ H].
    destruct (rsplit1 "." filename) as [[stem ext]|] eqn:E; [|discriminate].
    apply rsplit1_Some in E. destruct E as [-> Hext].
    exists stem, ext. split; [reflexivity|]. split; [exact Hext|].
    apply allowed_extension_In. exact H.
  - intros (stem & ext & -> & Hext & Hin).
    rewrite (allowed_file_app stem ext Hext).
    apply allowed_extension_In. exact Hin.
Qed.

(** X2. The decision depends on the last extension only, and on it up to
    the case of its letters: two names whose extensions (without a dot)
    have the same lower-case form are both accepted or both refused,
    whatever comes before the last dot. *)
Theorem allowed_file_extension_only (stem stem' ext ext' : string) :
  contains "." ext = false ->
  contains "." ext' = false ->
  lower ext = lower ext' ->
  allowed_file (stem ++ "." ++ ext) = allowed_file (stem' ++ "." ++ ext').
Proof.
  intros H H' E.
  rewrite (allowed_file_app stem ext H), (allowed_file_app stem' ext' H'), E.
  reflexivity.
Qed.

Lemma allowed_file_extension_only_witness :
  allowed_file "take 1.final.WAV" = allowed_file "x.wav"
  /\ allowed_file "x.wav" = true.
Proof.
  split; [|reflexivity].
  exact (allowed_file_extension_only "take 1.final" "x" "WAV" "wav"
           eq_refl eq_refl eq_refl).
Defined.

(** ** [classify_voice]: from the category back to the pitch *)

Ltac chain_cases :=
  repeat match goal with
  | |- context [if ?a && ?b then _ else _] =>
      destruct a eqn:?; destruct b eqn:?; cbn [andb]
  end.

Lemma classify_voice_in_band (p : float) (g : string) :
  in_band_of (classify_voice p g) g p.
Proof.
  unfold classify_voice.
  destruct (String.eqb_spec (lower g) "female") as [Hf|Hf].
  - chain_cases; simpl; trivial; repeat split; assumption.
  - destruct (String.eqb_spec (lower g) "male") as [Hm|Hm]; [|exact I].
    chain_cases; simpl; trivial; repeat split; assumption.
Qed.

Lemma in_band_of_classify (v : VoiceType) (p : float) (g : string) :
  v <> UNKNOWN -> in_band_of v g p -> classify_voice p g = v.
Proof.
  intros Hv.
  destruct v; simpl; try congruence; intros [Hg [H1 H2]];
    first [ rewrite (classify_voice_female p g Hg)
          | rewrite (classify_voice_male p g Hg) ];
    try bands_above H2; rewrite H1, H2; reflexivity.
Qed.

(** X3. A category other than Unknown is returned exactly for its gender
    and its band: Soprano only for "female" and a pitch in [450,1100],
    Tenor only for "male" and a pitch in [165,255), and so on for the
    seven categories. *)
Theorem classify_voice_category_iff (v : VoiceType) (p : float) (g : string) :
  v <> UNKNOWN ->
  (classify_voice p g = v <-> in_band_of v g p).
Proof.
  intros Hv. split.
  - intros <-. apply classify_voice_in_band.
  - apply in_band_of_classify. exact Hv.
Qed.

Lemma classify_voice_category_iff_witness :
  classify_voice (of_Z 200) "MALE" = TENOR
  <-> (lower "MALE" = "male"%string /\ in_co 165 255 (of_Z 200)).
Proof.
  apply (classify_voice_category_iff TENOR (of_Z 200) "MALE"). discriminate.
Defined.

Lemma ltb_leb (x y : float) : ltb x y = true -> leb x y = true.
Proof.
  rewrite ltb_iff, leb_iff. unfold lex_lt, lex_le.
  destruct (key x) as [[c1 e1] m1], (key y) as [[c2 e2] m2].
  intros (Hx & Hy & H). repeat split; trivial. lia.
Qed.

Lemma ltb_or_leb (x y : float) :
  is_nan x = false -> is_nan y = false -> ltb x y = true \/ leb y x = true.
Proof.
  intros Hx Hy. rewrite ltb_iff, leb_iff. unfold lex_lt, lex_le.
  destruct (key x) as [[c1 e1] m1], (key y) as [[c2 e2] m2].
  assert (H : (c1 < c2 \/ c1 = c2 /\ (e1 < e2 \/ e1 = e2 /\ m1 < m2))
              \/ (c2 < c1 \/ c2 = c1 /\ (e2 < e1 \/ e2 = e1 /\ m2 <= m1)))
    by lia.
  destruct H; [left|right]; repeat split; assumption.
Qed.

Lemma leb_not_nan (x y : float) :
  leb x y = true -> is_nan x = false /\ is_nan y = false.
Proof. rewrite leb_iff. tauto. Qed.

(** A band splits at an inner bound. *)
Lemma in_cc_split (a m b : Z) (p : float) :
  is_nan (of_Z m) = false ->
  in_cc a b p -> in_co a m p \/ in_cc m b p.
Proof.
  intros Hm [H1 H2]. destruct (leb_not_nan _ _ H1) as [_ Hp].
  destruct (ltb_or_leb p (of_Z m) Hp Hm) as [H|H].
  - left. split; assumption.
  - right. split; assumption.
Qed.

Lemma in_co_split (a m b : Z) (p : float) :
  is_nan (of_Z m) = false ->
  in_co a b p -> in_co a m p \/ in_co m b p.
Proof.
  intros Hm [H1 H2]. destruct (leb_not_nan _ _ H1) as [_ Hp].
  destruct (ltb_or_leb p (of_Z m) Hp Hm) as [H|H].
  - left. split; assumption.
  - right. split; assumption.
Qed.

(** A band lies in every band with a lower start and a higher end. *)
Lemma in_co_widen (a b a' b' : Z) (p : float) :
  leb (of_Z a') (of_Z a) = true -> leb (of_Z b) (of_Z b') = true ->
  in_co a b p -> in_cc a' b' p.
Proof.
  intros Ha Hb [H1 H2]. split.
  - exact (leb_trans _ _ _ Ha H1).
  - apply ltb_leb. exact (ltb_leb_trans _ _ _ H2 Hb).
Qed.

Lemma in_co_widen_co (a b a' b' : Z) (p : float) :
  leb (of_Z a') (of_Z a) = true -> leb (of_Z b) (of_Z b') = true ->
  in_co a b p -> in_co a' b' p.
Proof.
  intros Ha Hb [H1 H2]. split.
  - exact (leb_trans _ _ _ Ha H1).
  - exact (ltb_leb_trans _ _ _ H2 Hb).
Qed.

Lemma in_cc_widen (a b a' b' : Z) (p : float) :
  leb (of_Z a') (of_Z a) = true -> leb (of_Z b) (of_Z b') = true ->
  in_cc a b p -> in_cc a' b' p.
Proof.
  intros Ha Hb [H1 H2]. split.
  - exact (leb_trans _ _ _ Ha H1).
  - exact (leb_trans _ _ _ H2 Hb).
Qed.

(** X4. Unknown is returned exactly when the gender lowers to neither
    "female" nor "male", or it is "female" and the pitch is outside
    [165,1100], or it is "male" and the pitch is outside [80,255) and
    outside [450,700]: the female bands leave no gap, the male ones leave
    [255,450). *)
Theorem classify_voice_unknown_iff (p : float) (g : string) :
  classify_voice p g = UNKNOWN <->
  (lower g <> "female"%string /\ lower g <> "male"%string)
  \/ (lower g = "female"%string /\ ~ in_cc 165 1100 p)
  \/ (lower g = "male"%string /\ ~ in_co 80 255 p /\ ~ in_cc 450 700 p).
Proof.
  split.
  - intros HU.
    destruct (String.eqb_spec (lower g) "female") as [Hf|Hf].
    + right. left. split; [exact Hf|]. intros Hin.
      assert (H : in_band_of CONTRALTO g p \/ in_band_of MEZZO_SOPRANO g p
                  \/ in_band_of SOPRANO g p).
      { simpl.
        destruct (in_cc_split 165 350 1100 p eq_refl Hin) as [H|H]; [tauto|].
        destruct (in_cc_split 350 450 1100 p eq_refl H) as [H'|H']; tauto. }
      destruct H as [H|[H|H]];
        apply in_band_of_classify in H; congruence.
    + destruct (String.eqb_spec (lower g) "male") as [Hm|Hm]; [|tauto].
      right. right. split; [exact Hm|]. split; intros Hin.
      * assert (H : in_band_of BASS g p \/ in_band_of BARITONE g p
                    \/ in_band_of TENOR g p).
        { simpl.
          destruct (in_co_split 80 110 255 p eq_refl Hin) as [H|H]; [tauto|].
          destruct (in_co_split 110 165 255 p eq_refl H) as [H'|H']; tauto. }
        destruct H as [H|[H|H]];
          apply in_band_of_classify in H; congruence.
      * assert (H : in_band_of COUNTER_TENOR g p) by (simpl; tauto).
        apply in_band_of_classify in H; congruence.
  - intros [[Hf Hm]|[[Hf Hout]|[Hm [Hlow Hhigh]]]].
    + apply classify_voice_other; assumption.
    + pose proof (classify_voice_in_band p g) as H.
      destruct (classify_voice p g); simpl in H; try reflexivity;
        destruct H as [Hg H]; try congruence; exfalso; apply Hout.
      * exact (in_cc_widen 450 1100 165 1100 p eq_refl eq_refl H).
      * exact (in_co_widen 350 450 165 1100 p eq_refl eq_refl H).
      * exact (in_co_widen 165 350 165 1100 p eq_refl eq_refl H).
    + pose proof (classify_voice_in_band p g) as H.
      destruct (classify_voice p g); simpl in H; try reflexivity;
        destruct H as [Hg H]; try congruence; try tauto; exfalso.
      * apply Hlow.
        exact (in_co_widen_co 165 255 80 255 p eq_refl eq_refl H).
      * apply Hlow.
        exact (in_co_widen_co 110 165 80 255 p eq_refl eq_refl H).
      * apply Hlow.
        exact (in_co_widen_co 80 110 80 255 p eq_refl eq_refl H).
Qed.

Lemma order_contra (a b p q : float) :
  leb a p = true -> leb p q = true -> ltb q b = true -> leb b a = true ->
  False.
Proof.
  intros H1 H2 H3 H4.
  pose proof (ltb_not_leb q b H3) as Hn.
  rewrite (leb_trans b p q (leb_trans b a p H4 H1) H2) in Hn.
  discriminate Hn.
Qed.

(** X5. Within a gender, raising the pitch never lowers the category:
    when two pitches are both classified (neither is Unknown) and the
    first is at most the second, the category of the first is not above
    that of the second in the order of the bands. *)
Theorem classify_voice_monotone (p q : float) (g : string) :
  leb p q = true ->
  classify_voice p g <> UNKNOWN ->
  classify_voice q g <> UNKNOWN ->
  (register (classify_voice p g) <= register (classify_voice q g))%nat.
Proof.
  intros Hpq Hp Hq.
  pose proof (classify_voice_in_band p g) as Bp.
  pose proof (classify_voice_in_band q g) as Bq.
  destruct (classify_voice p g), (classify_voice q g);
    try congruence; simpl in Bp, Bq;
    destruct Bp as [Gp [Lp Up]], Bq as [Gq [Lq Uq]];
    try congruence; simpl; try lia; exfalso;
    exact (order_contra _ _ p q Lp Hpq Uq eq_refl).
Qed.

Lemma classify_voice_monotone_witness :
  (register (classify_voice (of_Z 100) "male")
   <= register (classify_voice (of_Z 500) "male"))%nat.
Proof.
  apply classify_voice_monotone.
  - reflexivity.
  - discriminate.
  - discriminate.
Defined.

(** ** The median among the frames *)

Lemma Forall_voiced_perm (l l' : list float) :
  Permutation l l' ->
  Forall (fun f => voiced f = true) l -> Forall (fun f => voiced f = true) l'.
Proof.
  intros Hp Hv. apply Forall_forall. intros f Hf.
  apply (Permutation_in f (Permutation_sym Hp)) in Hf.
  exact (proj1 (Forall_forall _ _) Hv f Hf).
Qed.

Lemma sort_perm_eq (l l' : list float) :
  Forall (fun f => voiced f = true) l -> Permutation l l' ->
  sort l = sort l'.
Proof.
  intros Hv Hp. apply sort_is_sorted_arrangement; trivial.
  - apply perm_trans with l'; [|apply Permutation_sym; exact Hp].
    apply Permutation_sym, sort_perm.
  - apply sort_sorted, Forall_voiced_not_nan.
    exact (Forall_voiced_perm l l' Hp Hv).
Qed.

(** X6. The median of a series of voiced frames does not depend on the
    order of the frames. *)
Theorem np_median_permutation (series series' : list float) :
  Forall (fun f => voiced f = true) series ->
  Permutation series series' ->
  np_median series = np_median series'.
Proof.
  intros Hv Hp. unfold np_median.
  rewrite (existsb_nan_voiced series Hv).
  rewrite (existsb_nan_voiced series' (Forall_voiced_perm _ _ Hp Hv)).
  rewrite (Permutation_length Hp), (sort_perm_eq series series' Hv Hp).
  reflexivity.
Qed.

Lemma np_median_permutation_witness :
  np_median [of_Z 300; of_Z 100; of_Z 400; of_Z 200]
  = np_median [of_Z 100; of_Z 200; of_Z 300; of_Z 400].
Proof.
  apply np_median_permutation.
  - repeat constructor.
  - exact (sort_perm [of_Z 300; of_Z 100; of_Z 400; of_Z 200]).
Defined.

Lemma leb_refl (x : float) : is_nan x = false -> leb x x = true.
Proof.
  intros Hx. destruct (leb_total x x Hx Hx); assumption.
Qed.

Lemma Permutation_filter_length (f : float -> bool) (l l' : list float) :
  Permutation l l' ->
  List.length (filter f l) = List.length (filter f l').
Proof.
  induction 1 as [|x l l' _ IH|x y l|l l' l'' _ IH1 _ IH2]; simpl.
  - reflexivity.
  - destruct (f x); simpl; rewrite IH; reflexivity.
  - destruct (f x), (f y); reflexivity.
  - rewrite IH1. exact IH2.
Qed.

(** In a sorted list the elements up to a place are at most the element
    at the place, the elements from the place on are at least it. *)
Lemma sorted_firstn_le (s : list float) (k : nat) :
  Forall (fun f => is_nan f = false) s -> StronglySorted le s ->
  (k < List.length s)%nat ->
  Forall (fun x => leb x (nth k s nan) = true) (firstn (S k) s).
Proof.
  intros Hn Hs. revert k.
  induction Hs as [|a t Hs IH Ha]; intros k Hk; [simpl in Hk; lia|].
  inversion Hn as [|? ? Hna Hnt]; subst.
  destruct k as [|k].
  - simpl. constructor; [apply leb_refl; exact Hna|constructor].
  - change (firstn (S (S k)) (a :: t)) with (a :: firstn (S k) t).
    change (nth (S k) (a :: t) nan) with (nth k t nan).
    simpl in Hk. constructor.
    + apply (proj1 (Forall_forall _ _) Ha). apply nth_In. lia.
    + apply IH; [exact Hnt|lia].
Qed.

Lemma sorted_skipn_ge (s : list float) (k : nat) :
  Forall (fun f => is_nan f = false) s -> StronglySorted le s ->
  (k < List.length s)%nat ->
  Forall (fun x => leb (nth k s nan) x = true) (skipn k s).
Proof.
  intros Hn Hs. revert k.
  induction Hs as [|a t Hs IH Ha]; intros k Hk; [simpl in Hk; lia|].
  inversion Hn as [|? ? Hna Hnt]; subst.
  destruct k as [|k].
  - simpl. constructor; [apply leb_refl; exact Hna|exact Ha].
  - change (skipn (S k) (a :: t)) with (skipn k t).
    change (nth (S k) (a :: t) nan) with (nth k t nan).
    simpl in Hk. apply IH; [exact Hnt|lia].
Qed.

Lemma filter_Forall_id (f : float -> bool) (l : list float) :
  Forall (fun x => f x = true) l -> filter f l = l.
Proof.
  induction 1 as [|x l Hx _ IH]; simpl; [reflexivity|].
  rewrite Hx, IH. reflexivity.
Qed.

(** X7. For a series of voiced frames of odd length [2k+1], the median is
    one of the frames, at least [k+1] frames are at most the median and at
    least [k+1] frames are at least the median. *)
Theorem np_median_odd_middle (series : list float) (k : nat) :
  Forall (fun f => voiced f = true) series ->
  List.length series = (2 * k + 1)%nat ->
  In (np_median series) series
  /\ (k + 1 <= List.length
                 (filter (fun x => leb x (np_median series)) series))%nat
  /\ (k + 1 <= List.length
                 (filter (fun x => leb (np_median series) x) series))%nat.
Proof.
  intros Hv Hlen.
  pose proof (sort_perm series) as Hp.
  pose proof (Forall_voiced_not_nan _ (Forall_voiced_perm _ _ Hp Hv)) as Hn.
  pose proof (sort_sorted series (Forall_voiced_not_nan _ Hv)) as Hs.
  assert (Hss : StronglySorted le (sort series))
    by (apply Sorted_StronglySorted; [exact le_trans|exact Hs]).
  rewrite (np_median_odd series (sort series) k Hv
             (Permutation_sym Hp) Hs Hlen).
  assert (Hl : List.length (sort series) = (2 * k + 1)%nat)
    by (rewrite <- (Permutation_length Hp); exact Hlen).
  set (m := nth k (sort series) nan).
  split; [|split].
  - apply (Permutation_in m (Permutation_sym Hp)). apply nth_In. lia.
  - rewrite (Permutation_filter_length _ _ _ Hp).
    rewrite <- (firstn_skipn (S k) (sort series)) at 1.
    rewrite filter_app, length_app.
    assert (E : filter (fun x => leb x m) (firstn (S k) (sort series))
                = firstn (S k) (sort series)).
    { apply filter_Forall_id.
      exact (sorted_firstn_le (sort series) k Hn Hss ltac:(lia)). }
    rewrite E, length_firstn. lia.
  - rewrite (Permutation_filter_length _ _ _ Hp).
    rewrite <- (firstn_skipn k (sort series)) at 1.
    rewrite filter_app, length_app.
    assert (E : filter (fun x => leb m x) (skipn k (sort series))
                = skipn k (sort series)).
    { apply filter_Forall_id.
      exact (sorted_skipn_ge (sort series) k Hn Hss ltac:(lia)). }
    rewrite E, length_skipn. lia.
Qed.

Lemma np_median_odd_middle_witness :
  In (np_median [of_Z 300; of_Z 100; of_Z 200])
     [of_Z 300; of_Z 100; of_Z 200].
Proof.
  refine (proj1 (np_median_odd_middle [of_Z 300; of_Z 100; of_Z 200] 1 _ _)).
  - repeat constructor.
  - reflexivity.
Defined.

(** ** The outcomes of the analysis *)

(** X8. For a buffer of fewer than [2^53] samples and a rate under
    [2^53], the answer of the analysis is decided in this order: a rate of
    zero gives a 500 answer (division by zero); fewer samples than half
    the rate give the 400 answer for a recording that is too short; an
    exception of the estimator gives a 500 answer; frames of which none is
    voiced give the 400 answer for a missing pitch; otherwise the answer
    is a success that carries the voiced frames. *)
Theorem analyze_outcome
    (yin : list float -> Z -> string + list float)
    (y : list float) (sr : Z) (gender : string) (start_time now : Z) :
  Z.of_nat (List.length y) < 2 ^ 53 ->
  0 <= sr < 2 ^ 53 ->
  (sr = 0 ->
     analyze yin y sr gender start_time now = Failure 500 ZeroDivisionError)
  /\ (2 * Z.of_nat (List.length y) < sr ->
      analyze yin y sr gender start_time now
      = Failure 400 (ValueError InsufficientAudio))
  /\ (0 < sr <= 2 * Z.of_nat (List.length y) ->
      forall what, yin y sr = inl what ->
      analyze yin y sr gender start_time now
      = Failure 500 (LibraryError what))
  /\ (0 < sr <= 2 * Z.of_nat (List.length y) ->
      forall frames, yin y sr = inr frames ->
      filter voiced frames = [] ->
      analyze yin y sr gender start_time now
      = Failure 400 (ValueError NoPitchDetected))
  /\ (0 < sr <= 2 * Z.of_nat (List.length y) ->
      forall frames, yin y sr = inr frames ->
      filter voiced frames <> [] ->
      exists body,
        analyze yin y sr gender start_time now = Success body
        /\ body_pitch_series body = filter voiced frames
        /\ body_average_pitch body
           = py_round2 (np_median (filter voiced frames))).
Proof.
  intros Hlen Hsr.
  split.
  { intros ->. unfold analyze. rewrite analyze_pitch_eq. reflexivity. }
  assert (Hpos : 0 < sr ->
            exists d, int_truediv (Z.of_nat (List.length y)) sr = Ok d
                      /\ (ltb d (decimal 5 1) = true
                          <-> 2 * Z.of_nat (List.length y) < sr)).
  { intros H. apply int_truediv_lt_half; lia. }
  split.
  { intros Hshort. destruct (Hpos ltac:(lia)) as (d & Hd & Hiff).
    unfold analyze. rewrite analyze_pitch_eq, Hd.
    rewrite (proj2 Hiff Hshort). reflexivity. }
  assert (Hlong : 0 < sr <= 2 * Z.of_nat (List.length y) ->
            exists d, int_truediv (Z.of_nat (List.length y)) sr = Ok d
                      /\ ltb d (decimal 5 1) = false).
  { intros H. destruct (Hpos ltac:(lia)) as (d & Hd & Hiff).
    exists d. split; [exact Hd|].
    destruct (ltb d (decimal 5 1)); [|reflexivity].
    pose proof (proj1 Hiff eq_refl). lia. }
  split; [|split].
  - intros H what Hy. destruct (Hlong H) as (d & Hd & Hge).
    unfold analyze. rewrite analyze_pitch_eq, Hd, Hge, Hy. reflexivity.
  - intros H frames Hy Hnone. destruct (Hlong H) as (d & Hd & Hge).
    unfold analyze. rewrite analyze_pitch_eq, Hd, Hge, Hy, Hnone.
    reflexivity.
  - intros H frames Hy Hsome. destruct (Hlong H) as (d & Hd & Hge).
    unfold analyze. rewrite analyze_pitch_eq, Hd, Hge, Hy.
    destruct (filter voiced frames) as [|x s]; [congruence|].
    eexists. split; [reflexivity|]. split; reflexivity.
Qed.

Lemma analyze_outcome_witness :
  analyze yin_mixed (repeat zero 3) 8 "male" 0 1
  = Failure 400 (ValueError InsufficientAudio)
  /\ analyze yin_unvoiced (repeat zero 4) 8 "male" 0 1
     = Failure 400 (ValueError NoPitchDetected).
Proof.
  split.
  - refine (proj1 (proj2 (analyze_outcome yin_mixed (repeat zero 3) 8
                            "male" 0 1 _ _)) _);
      simpl; lia.
  - refine (proj1 (proj2 (proj2 (proj2 (analyze_outcome yin_unvoiced
              (repeat zero 4) 8 "male" 0 1 _ _)))) _
              [of_Z 0; nan; of_Z 0] eq_refl eq_refl);
      simpl; lia.
Defined.

(** ** Temporary files *)

Lemma clean_up_file_frame (w : World) (fs : FS) (path : option string)
    (q : string) :
  (clean_up_file w fs path q = true -> fs q = true)
  /\ ((forall p, path = Some p -> q <> p /\ os_aliases w q p = false) ->
      clean_up_file w fs path q = fs q).
Proof.
  unfold clean_up_file. destruct path as [p|]; [|tauto].
  destruct (negb (p =? "")%string && fs p); [|tauto].
  destruct (os_remove_ok w fs p); [|tauto].
  unfold fs_remove. split.
  - destruct ((q =? p)%string || os_aliases w q p); [discriminate|tauto].
  - intros H. destruct (H p eq_refl) as [Hq Ha].
    apply String.eqb_neq in Hq. rewrite Hq, Ha. reflexivity.
Qed.

(** A path that is [None], empty or missing is skipped. *)
Lemma clean_up_file_skip (w : World) (fs : FS) (path : option string) :
  (forall p, path = Some p -> p = ""%string \/ fs p = false) ->
  clean_up_file w fs path = fs.
Proof.
  unfold clean_up_file. destruct path as [p|]; [|reflexivity].
  intros H. destruct (H p eq_refl) as [->|Hp]; [reflexivity|].
  rewrite Hp, andb_false_r. reflexivity.
Qed.

(** X9. [clean_up_files] creates no file: a path that exists afterwards
    existed before.  It removes nothing when every listed path is [None],
    empty or missing.  A path that is none of the listed ones and names
    none of their files exists afterwards exactly when it existed
    before. *)
Theorem clean_up_files_frame (w : World) (file_paths : list (option string))
    (fs : FS) (q : string) :
  (clean_up_files w file_paths fs q = true -> fs q = true)
  /\ ((forall p, In (Some p) file_paths -> p = ""%string \/ fs p = false) ->
      clean_up_files w file_paths fs = fs)
  /\ ((forall p, In (Some p) file_paths ->
                 q <> p /\ os_aliases w q p = false) ->
      clean_up_files w file_paths fs q = fs q).
Proof.
  unfold clean_up_files. revert fs.
  induction file_paths as [|path rest IH]; intros fs; simpl; [tauto|].
  destruct (IH (clean_up_file w fs path)) as (IH1 & IH2 & IH3).
  destruct (clean_up_file_frame w fs path q) as [F1 F2].
  split; [|split].
  - intros H. apply F1, IH1, H.
  - intros Hskip.
    assert (E : clean_up_file w fs path = fs).
    { apply clean_up_file_skip. intros p ->. apply Hskip. auto. }
    rewrite E. destruct (IH fs) as (_ & IH2' & _). apply IH2'.
    intros p Hp. apply Hskip. auto.
  - intros Hq. rewrite IH3 by (intros p Hp; apply Hq; auto).
    apply F2. intros p ->. apply Hq. auto.
Qed.

Lemma clean_up_files_frame_witness :
  clean_up_files example_world [Some "uploads/a.wav"%string; None]
    (fun _ => true) "uploads/b.wav"%string = true
  /\ clean_up_files example_world [Some "uploads/a.wav"%string; None]
       (fun _ => true) "./uploads/a.wav"%string = false.
Proof.
  split; [|reflexivity].
  refine (proj2 (proj2 (clean_up_files_frame example_world
                   [Some "uploads/a.wav"%string; None] (fun _ => true)
                   "uploads/b.wav")) _).
  intros p [E|[E|[]]]; [|discriminate E].
  injection E as <-. split; [discriminate|reflexivity].
Defined.

Lemma clean_up_files_absent (w : World) (file_paths : list (option string))
    (fs : FS) (q : string) :
  fs q = false -> clean_up_files w file_paths fs q = false.
Proof.
  unfold clean_up_files. revert fs.
  induction file_paths as [|path rest IH]; intros fs H; simpl; [exact H|].
  apply IH. destruct (clean_up_file w fs path q) eqn:E; [|reflexivity].
  apply (clean_up_file_frame w fs path q) in E. congruence.
Qed.

Lemma clean_up_file_removes (w : World) (fs : FS) (p : string) :
  (forall fs0, os_remove_ok w fs0 p = true) -> p <> ""%string ->
  clean_up_file w fs (Some p) p = false.
Proof.
  intros Hrm Hp. unfold clean_up_file.
  apply String.eqb_neq in Hp. rewrite Hp. cbn [negb andb].
  destruct (fs p) eqn:E; [|exact E].
  rewrite Hrm. unfold fs_remove. rewrite String.eqb_refl. reflexivity.
Qed.

(** X10. After [clean_up_files], a listed path that is not empty and that
    [os.remove] can delete does not exist, whatever else is listed. *)
Theorem clean_up_files_removes (w : World)
    (file_paths : list (option string)) (fs : FS) (p : string) :
  In (Some p) file_paths ->
  p <> ""%string ->
  (forall fs0, os_remove_ok w fs0 p = true) ->
  clean_up_files w file_paths fs p = false.
Proof.
  intros Hin Hp Hrm. revert fs.
  induction file_paths as [|path rest IH]; intros fs; [destruct Hin|].
  change (clean_up_files w (path :: rest) fs)
    with (clean_up_files w rest (clean_up_file w fs path)).
  destruct Hin as [->|Hin].
  - apply clean_up_files_absent. apply clean_up_file_removes; assumption.
  - apply IH. exact Hin.
Qed.

Lemma clean_up_files_removes_witness :
  clean_up_files example_world
    [None; Some "uploads/a.wav"%string; Some ""%string]
    (fun _ => true) "uploads/a.wav"%string = false.
Proof.
  apply (clean_up_files_removes example_world _ (fun _ => true)
           "uploads/a.wav").
  - simpl. tauto.
  - discriminate.
  - reflexivity.
Defined.

(** ** The endpoint *)

Lemma append_not_empty (a b : string) :
  a <> ""%string -> (a ++ b)%string <> ""%string.
Proof. destruct a; [congruence|discriminate]. Qed.

Lemma path_join_not_empty (a b : string) :
  a <> ""%string -> path_join a b <> ""%string.
Proof.
  intros Ha. unfold path_join.
  destruct (startswith_sep b) eqn:Eb.
  - destruct b; [discriminate Eb|discriminate].
  - destruct ((a =? "")%string || endswith_sep a);
      apply append_not_empty; exact Ha.
Qed.

Lemma generate_unique_filename_not_empty (w : World) (name : string) :
  fst (generate_unique_filename w name) <> ""%string
  /\ snd (generate_unique_filename w name) <> ""%string.
Proof.
  unfold generate_unique_filename. cbn [fst snd].
  split; apply path_join_not_empty; discriminate.
Qed.

(** The answer of a request that passes the validation, and the file
    system before the clean-up. *)
Lemma analyze_try_valid (w : World) (req : Request) (start_time now : Z)
    (fs : FS) (filename gender : string) :
  req_too_large req = false ->
  req_file req = Some filename ->
  req_gender req = Some gender ->
  filename <> ""%string ->
  allowed_file filename = true ->
  exists answer fs',
    analyze_try w req start_time now fs
    = (answer, fs',
       [Some (fst (generate_unique_filename w filename));
        Some (snd (generate_unique_filename w filename))])
    /\ (forall e, answer <> Rejected e) /\ answer <> TooLarge.
Proof.
  intros Hl Hf Hg Hn Ha. unfold analyze_try.
  rewrite Hl, Hf, Hg, Ha. apply String.eqb_neq in Hn. rewrite Hn.
  cbn [negb].
  destruct (generate_unique_filename w filename) as [ip op]. cbn [fst snd].
  destruct (file_save w ip fs) as [[v|] fs1].
  { eexists _, _. split; [reflexivity|]. split; [intros e|]; discriminate. }
  destruct (convert_to_wav w ip op fs1) as [[v|] fs2].
  - eexists _, _. split; [reflexivity|]. split; [intros e|]; discriminate.
  - destruct (librosa_load w op fs2) as [v|[y sr]];
      eexists _, _; (split; [reflexivity|]); split;
        [intros e| |intros e|]; discriminate.
Qed.

(** X11. After a request that passed the validation, the uploaded file and
    the converted file do not exist, whatever the conversion, the loading
    and the analysis did and whatever the answer is, as long as
    [os.remove] can delete them. *)
Theorem analyze_request_cleans_up (w : World) (req : Request)
    (start_time now : Z) (fs : FS) (filename gender : string) :
  req_too_large req = false ->
  req_file req = Some filename ->
  req_gender req = Some gender ->
  filename <> ""%string ->
  allowed_file filename = true ->
  (forall fs0 p, os_remove_ok w fs0 p = true) ->
  let fs' := snd (analyze_request w req start_time now fs) in
  fs' (fst (generate_unique_filename w filename)) = false
  /\ fs' (snd (generate_unique_filename w filename)) = false.
Proof.
  intros Hl Hf Hg Hn Ha Hrm fs'. subst fs'. unfold analyze_request.
  destruct (analyze_try_valid w req start_time now fs filename gender
              Hl Hf Hg Hn Ha) as (answer & fs1 & -> & _).
  cbn [snd].
  destruct (generate_unique_filename_not_empty w filename) as [Hi Ho].
  set (ip := fst (generate_unique_filename w filename)) in *.
  set (op := snd (generate_unique_filename w filename)) in *.
  change (clean_up_files w [Some ip; Some op] fs1)
    with (clean_up_file w (clean_up_file w fs1 (Some ip)) (Some op)).
  split.
  - apply (clean_up_files_absent w [Some op]).
    apply clean_up_file_removes; [intros fs0; apply Hrm|exact Hi].
  - apply clean_up_file_removes; [intros fs0; apply Hrm|exact Ho].
Qed.

Lemma analyze_request_cleans_up_witness :
  snd (analyze_request example_world example_request 0 1 empty_fs)
      "uploads/0f3a_take.WAV"%string = false
  /\ snd (analyze_request example_world example_request 0 1 empty_fs)
         "converted/0f3a_take.wav"%string = false.
Proof.
  apply (analyze_request_cleans_up example_world example_request 0 1
           empty_fs "take.WAV" "Male"); try reflexivity.
  discriminate.
Defined.

Lemma analyze_failure_code
    (yin : list float -> Z -> string + list float)
    (y : list float) (sr : Z) (gender : string) (start_time now : Z)
    (code : Z) (e : exn) :
  analyze yin y sr gender start_time now = Failure code e ->
  code = 400 \/ code = 500.
Proof.
  unfold analyze.
  destruct (analyze_pitch yin y sr) as [[median series]|e']; [discriminate|].
  destruct e'; intros H; injection H as <- _; auto.
Qed.

(** The six ways through the validation. *)
Lemma analyze_request_cases (w : World) (req : Request)
    (start_time now : Z) (fs : FS) :
  (req_too_large req = true
   /\ analyze_request w req start_time now fs = (TooLarge, fs))
  \/ (req_too_large req = false /\ req_file req = None
      /\ analyze_request w req start_time now fs = (Rejected NoFilePart, fs))
  \/ (req_too_large req = false /\ req_file req <> None
      /\ req_gender req = None
      /\ analyze_request w req start_time now fs
         = (Rejected NoGenderField, fs))
  \/ (req_too_large req = false /\ req_file req = Some ""%string
      /\ req_gender req <> None
      /\ analyze_request w req start_time now fs
         = (Rejected NoFileSelected, fs))
  \/ (req_too_large req = false /\ req_gender req <> None
      /\ (exists filename,
            req_file req = Some filename /\ filename <> ""%string
            /\ allowed_file filename = false)
      /\ analyze_request w req start_time now fs
         = (Rejected UnsupportedFormat, fs))
  \/ (req_too_large req = false
      /\ (exists filename gender,
            req_file req = Some filename /\ req_gender req = Some gender
            /\ filename <> ""%string /\ allowed_file filename = true)
      /\ fst (analyze_request w req start_time now fs) <> TooLarge
      /\ forall e,
           fst (analyze_request w req start_time now fs) <> Rejected e).
Proof.
  destruct (req_too_large req) eqn:Hl.
  { left. split; [reflexivity|].
    unfold analyze_request, analyze_try. rewrite Hl. reflexivity. }
  right. destruct (req_file req) as [filename|] eqn:Hf.
  2: { left. repeat split.
       unfold analyze_request, analyze_try. rewrite Hl, Hf. reflexivity. }
  right. destruct (req_gender req) as [gender|] eqn:Hg.
  2: { left. repeat split; [discriminate|].
       unfold analyze_request, analyze_try. rewrite Hl, Hf, Hg.
       reflexivity. }
  right. destruct (String.eqb_spec filename "") as [->|Hn].
  { left. repeat split; [discriminate|].
    unfold analyze_request, analyze_try. rewrite Hl, Hf, Hg. reflexivity. }
  right. destruct (allowed_file filename) eqn:Ha.
  - right. split; [reflexivity|]. split; [exists filename, gender; auto|].
    destruct (analyze_try_valid w req start_time now fs filename gender
                Hl Hf Hg Hn Ha) as (answer & fs1 & E & Hrej & Hbig).
    unfold analyze_request. rewrite E. cbn [fst]. auto.
  - left. split; [reflexivity|]. split; [discriminate|].
    split; [exists filename; auto|].
    unfold analyze_request, analyze_try. rewrite Hl, Hf, Hg, Ha.
    apply String.eqb_neq in Hn. rewrite Hn. reflexivity.
Qed.

Ltac validation_case :=
  repeat split; intros;
  repeat match goal with
  | H : _ /\ _ |- _ => destruct H
  | H : exists _, _ |- _ => destruct H
  | H : _ \/ _ |- _ => destruct H
  end;
  repeat split;
  try discriminate; try congruence;
  try (eexists; repeat split; try eassumption; congruence).

(** X12. The validation of a request, in its order: a body that is too
    large is answered 413 before anything is looked at; then a missing
    file part, a missing gender field, an empty file name and a refused
    extension are reported, each only when the checks before it passed.
    Such an answer leaves the file system as it was. *)
Theorem analyze_request_validation (w : World) (req : Request)
    (start_time now : Z) (fs : FS) :
  let answer := fst (analyze_request w req start_time now fs) in
  (answer = TooLarge <-> req_too_large req = true)
  /\ (answer = Rejected NoFilePart <->
      req_too_large req = false /\ req_file req = None)
  /\ (answer = Rejected NoGenderField <->
      req_too_large req = false /\ req_file req <> None
      /\ req_gender req = None)
  /\ (answer = Rejected NoFileSelected <->
      req_too_large req = false /\ req_file req = Some ""%string
      /\ req_gender req <> None)
  /\ (answer = Rejected UnsupportedFormat <->
      req_too_large req = false /\ req_gender req <> None
      /\ exists filename,
           req_file req = Some filename /\ filename <> ""%string
           /\ allowed_file filename = false)
  /\ (answer = TooLarge \/ (exists e, answer = Rejected e) ->
      snd (analyze_request w req start_time now fs) = fs).
Proof.
  intros answer. subst answer.
  destruct (analyze_request_cases w req start_time now fs)
    as [(Hl & E)|[(Hl & Hf & E)|[(Hl & Hf & Hg & E)|[(Hl & Hf & Hg & E)
        |[(Hl & Hg & (filename & Hf & Hn & Ha) & E)
         |(Hl & (filename & gender & Hf & Hg & Hn & Ha) & Hbig & Hrej)]]]]];
    try rewrite E; cbn [fst snd].
  - validation_case.
  - validation_case.
  - validation_case.
  - validation_case.
  - validation_case.
  - validation_case; try (exfalso; eapply Hrej; eassumption).
Qed.

(** X13. A 200 answer is given only when every step succeeded: the
    request passed the validation, the upload was saved, the converter
    exited with 0, the converted file was loaded and the analysis of the
    loaded buffer succeeded; the body is then the one of that analysis. *)
Theorem analyze_request_ok_inv (w : World) (req : Request)
    (start_time now : Z) (fs : FS) :
  status (fst (analyze_request w req start_time now fs)) = 200 ->
  exists filename gender fs1 fs2 y sr body,
    req_too_large req = false
    /\ req_file req = Some filename /\ req_gender req = Some gender
    /\ allowed_file filename = true
    /\ file_save w (fst (generate_unique_filename w filename)) fs
       = (None, fs1)
    /\ ffmpeg w (fst (generate_unique_filename w filename))
              (snd (generate_unique_filename w filename)) fs1
       = (inl 0, fs2)
    /\ librosa_load w (snd (generate_unique_filename w filename)) fs2
       = inr (y, sr)
    /\ analyze (librosa_yin w) y sr gender start_time now = Success body
    /\ fst (analyze_request w req start_time now fs)
       = Analysed (Success body).
Proof.
  unfold analyze_request, analyze_try.
  destruct (req_too_large req) eqn:Hl; [discriminate|].
  destruct (req_file req) as [filename|]; [|discriminate].
  destruct (req_gender req) as [gender|]; [|discriminate].
  destruct (filename =? "")%string; [discriminate|].
  destruct (allowed_file filename) eqn:Ha; [|discriminate]. cbn [negb].
  destruct (generate_unique_filename w filename) as [ip op] eqn:Hgen.
  cbn [fst snd].
  destruct (file_save w ip fs) as [[[|]|] fs1] eqn:Hs; try discriminate.
  unfold convert_to_wav.
  destruct (ffmpeg w ip op fs1) as [[[|c|c]|[|]] fs2] eqn:Hc;
    try discriminate.
  destruct (librosa_load w op fs2) as [[|]|[y sr]] eqn:Hld; try discriminate.
  cbn [fst status].
  destruct (analyze (librosa_yin w) y sr gender start_time now)
    as [body|code e] eqn:Hcore.
  - intros _. exists filename, gender, fs1, fs2, y, sr, body.
    rewrite Hgen. cbn [fst snd]. repeat split; trivial.
  - intros H. subst code.
    destruct (analyze_failure_code _ _ _ _ _ _ _ _ Hcore); discriminate.
Qed.

Lemma analyze_request_ok_inv_witness :
  exists body,
    fst (analyze_request example_world example_request 10 35 empty_fs)
    = Analysed (Success body).
Proof.
  destruct (analyze_request_ok_inv example_world example_request 10 35
              empty_fs eq_refl)
    as (filename & gender & fs1 & fs2 & y & sr & body & H).
  exists body. apply H.
Defined.

(** X15. The endpoint answers with one of four status codes: 200, 400,
    413 or 500, whatever the request and whatever its collaborators do. *)
Theorem analyze_request_status (w : World) (req : Request)
    (start_time now : Z) (fs : FS) :
  In (status (fst (analyze_request w req start_time now fs)))
     [200; 400; 413; 500].
Proof.
  destruct (fst (analyze_request w req start_time now fs))
    as [e| |[|]|[body|code e]] eqn:E; simpl; auto.
  assert (Hcode : code = 400 \/ code = 500).
  { revert E. unfold analyze_request, analyze_try.
    destruct (req_too_large req); [discriminate|].
    destruct (req_file req) as [filename|]; [|discriminate].
    destruct (req_gender req) as [gender|]; [|discriminate].
    destruct (filename =? "")%string; [discriminate|].
    destruct (allowed_file filename); [|discriminate]. cbn [negb].
    destruct (generate_unique_filename w filename) as [ip op].
    destruct (file_save w ip fs) as [[v|] fs1]; [discriminate|].
    destruct (convert_to_wav w ip op fs1) as [[v|] fs2]; [discriminate|].
    destruct (librosa_load w op fs2) as [v|[y sr]]; [discriminate|].
    cbn [fst]. intros H. injection H as H.
    exact (analyze_failure_code _ _ _ _ _ _ _ _ H). }
  destruct Hcode as [->| ->]; auto.
Qed.

(** ** [generate_unique_filename] *)

Lemma append_assoc (a b c : string) :
  ((a ++ b) ++ c)%string = (a ++ b ++ c)%string.
Proof.
  induction a as [|x a IH]; simpl; [reflexivity|]. rewrite IH. reflexivity.
Qed.

(** X14. The two paths of an upload are never empty and the converted
    file has an accepted name, ending in [.wav]; when the secured name
    does not start with a separator, the upload lies in [uploads/], is
    named by it, and differs from the converted file. *)
Theorem generate_unique_filename_paths (w : World) (original : string) :
  let safe := secure_filename w (uuid_hex w ++ "_" ++ original)%string in
  let input_path := fst (generate_unique_filename w original) in
  let output_path := snd (generate_unique_filename w original) in
  input_path <> ""%string
  /\ output_path <> ""%string
  /\ allowed_file output_path = true
  /\ (startswith_sep safe = false ->
      input_path = ("uploads/" ++ safe)%string
      /\ input_path <> output_path).
Proof.
  intros safe input_path output_path.
  destruct (generate_unique_filename_not_empty w original) as [Hi Ho].
  split; [exact Hi|]. split; [exact Ho|].
  subst input_path output_path. unfold generate_unique_filename.
  cbn [fst snd]. fold safe.
  set (root := fst (splitext safe)).
  assert (Hout : path_join Config.CONVERTED_FOLDER (root ++ ".wav")
                 = (root ++ ".wav")%string
                   /\ startswith_sep (root ++ ".wav") = true
               \/ path_join Config.CONVERTED_FOLDER (root ++ ".wav")
                  = ("converted/" ++ root ++ ".wav")%string).
  { unfold path_join.
    destruct (startswith_sep (root ++ ".wav")); [left; auto|right].
    reflexivity. }
  split.
  - destruct Hout as [[-> _]| ->].
    + apply (allowed_file_app root "wav"). reflexivity.
    + change ("converted/" ++ root ++ ".wav")%string
        with (("converted/" ++ root) ++ "." ++ "wav")%string.
      apply (allowed_file_app ("converted/" ++ root) "wav"). reflexivity.
  - intros Hsafe.
    assert (Hin : path_join Config.UPLOAD_FOLDER safe
                  = ("uploads/" ++ safe)%string)
      by (unfold path_join; rewrite Hsafe; reflexivity).
    rewrite Hin. split; [reflexivity|].
    destruct Hout as [[-> Hs]| ->].
    + destruct (root ++ ".wav")%string as [|c r]; [discriminate Hs|].
      simpl in Hs. apply Ascii.eqb_eq in Hs. subst c. discriminate.
    + discriminate.
Qed.
